(** * EncryptedVideoConference: the conference-record ledger

    A shallow embedding of the Solidity contract [EncryptedVideoConference]
    (one storage mapping from conference id to [Conference], one array of
    ids, five guarded entry points and the compiler-generated getters), and
    the properties of its record lifecycle.

    Conventions.
    - [uint256], [uint32], [address] and [bytes32] values are [Z]; the
      contract only compares and copies them, it performs no arithmetic.
    - [string] is the byte string of Solidity, so [bytes(x).length] is
      [String.length x].
    - [mapping(string => Conference)] is a [gmap string Conference] read
      with the total lookup [!!!]: a key that was never written reads as the
      all-zero struct, exactly as a Solidity mapping does.  The partial
      lookup [!!] tells whether a record was ever written, which the
      contract itself cannot observe.
    - A function body is a state transformer that stops at the first
      revert and keeps the storage reached so far; [transact] is the
      ledger: it commits a finished body and discards what a reverted one
      wrote.
    - [App] holds the pure parts of the client ([App.tsx]): the history
      updater, the form handler and the list and statistics that
      [loadConferences] builds. *)

From Stdlib Require Import ZArith Lia.
From stdpp Require Import gmap strings list fin_maps.

#[local] Open Scope Z_scope.

(** ** Value types *)

Abbreviation address := Z (only parsing).
Abbreviation uint256 := Z (only parsing).
Abbreviation uint32 := Z (only parsing).
Abbreviation bytes32 := Z (only parsing).
Abbreviation bytes := (list Byte.byte) (only parsing).

(** [euint32] and [externalEuint32] are the FHE library's handle types, both
    [bytes32] words. *)
Abbreviation euint32 := Z (only parsing).
Abbreviation externalEuint32 := Z (only parsing).

(** ** Storage *)

Record Conference : Type := mkConference {
  conferenceId : string;
  encryptedStreamKey : euint32;
  creator : address;
  startTime : uint256;
  endTime : uint256;
  isActive : bool;
  decryptedStreamKey : uint32;
  isDecrypted : bool
}.

(** The value of a storage slot that was never written. *)
Definition zeroConference : Conference :=
  {| conferenceId := ""; encryptedStreamKey := 0; creator := 0;
     startTime := 0; endTime := 0; isActive := false;
     decryptedStreamKey := 0; isDecrypted := false |}.

#[global] Instance Conference_inhabited : Inhabited Conference :=
  populate zeroConference.

Inductive Event : Type :=
| ConferenceCreated (id : string) (by_ : address)
| StreamKeyDecrypted (id : string) (decryptedKey : uint32).

Record State : Type := mkState {
  conferences : gmap string Conference;
  conferenceIds : list string;
  events : list Event
}.

(** Storage right after deployment (the constructor body is empty). *)
Definition init : State :=
  {| conferences := ∅; conferenceIds := []; events := [] |}.

(** [msg.sender] and [block.timestamp] of one call. *)
Record Env : Type := mkEnv {
  msg_sender : address;
  block_timestamp : uint256
}.

(** ** Reverts *)

(** One constructor per [require] message of the contract, and one per
    place where code outside the contract can revert. *)
Inductive Revert : Type :=
| ConferenceAlreadyExists      (* "Conference already exists" *)
| InvalidEncryptedInput        (* "Invalid encrypted input" *)
| InvalidTimeRange             (* "Invalid time range" *)
| ConferenceHasAlreadyEnded    (* "Conference has already ended" *)
| ConferenceDoesNotExist       (* "Conference does not exist" *)
| StreamKeyAlreadyDecrypted    (* "Stream key already decrypted" *)
| ConferenceHasNotStarted      (* "Conference has not started" *)
| ConferenceHasEnded           (* "Conference has ended" *)
| OnlyCreatorCanEndConference  (* "Only creator can end conference" *)
| ConferenceIsStillActive      (* "Conference is still active" *)
| InputVerificationReverted    (* FHE.fromExternal reverts *)
| AclReverted                  (* FHE.allowThis / FHE.makePubliclyDecryptable revert *)
| SignatureCheckReverted       (* FHE.checkSignatures reverts *)
| AbiDecodeReverted.           (* abi.decode reverts *)

#[global] Instance Revert_eq_dec : EqDecision Revert.
Proof. solve_decision. Defined.

(** The error names used by the specification. *)
Inductive SpecError : Type :=
| AlreadyExists | InvalidProof | InvalidWindow | NotFound | AlreadyDecrypted
| WindowClosed | ProofInvalid | Forbidden | StillActive
| Unspecified.

#[global] Instance SpecError_eq_dec : EqDecision SpecError.
Proof. solve_decision. Defined.

Definition classify (r : Revert) : SpecError :=
  match r with
  | ConferenceAlreadyExists => AlreadyExists
  | InvalidEncryptedInput | InputVerificationReverted => InvalidProof
  | InvalidTimeRange | ConferenceHasAlreadyEnded => InvalidWindow
  | ConferenceDoesNotExist => NotFound
  | StreamKeyAlreadyDecrypted => AlreadyDecrypted
  | ConferenceHasNotStarted | ConferenceHasEnded => WindowClosed
  | SignatureCheckReverted => ProofInvalid
  | OnlyCreatorCanEndConference => Forbidden
  | ConferenceIsStillActive => StillActive
  | AclReverted | AbiDecodeReverted => Unspecified
  end.

Inductive result (A : Type) : Type :=
| Ok (a : A)
| Err (r : Revert).
Arguments Ok {A} a.
Arguments Err {A} r.

(** ** The external FHE library

    The library is not part of the contract; the contract is parametric in
    it.  [None] and [false] stand for a call that reverts. *)
Class FHE : Type := {
  fromExternal : externalEuint32 → bytes → option euint32;
  isInitialized : euint32 → bool;
  allowThis : euint32 → bool;
  makePubliclyDecryptable : euint32 → bool;
  toBytes32 : euint32 → bytes32;
  checkSignatures : list bytes32 → bytes → bytes → bool
}.

(** ** [abi.decode(data, (uint32))]

    The decoder reads the first 32-byte word, big endian; it reverts when
    fewer than 32 bytes are present or when the word does not fit 32 bits.
    Bytes after the first word are ignored. *)
Definition be_word (bs : bytes) : Z :=
  fold_left (λ acc b, acc * 256 + Z.of_N (Byte.to_N b)) bs 0.

Definition abi_decode_uint32 (data : bytes) : option uint32 :=
  if (length data <? 32)%nat then None
  else let w := be_word (take 32 data) in
       if w <? 2 ^ 32 then Some w else None.

(** ** Function bodies as state transformers *)

Inductive Outcome (A : Type) : Type :=
| Done (a : A) (s : State)
| Reverted (r : Revert) (s : State).
Arguments Done {A} a s.
Arguments Reverted {A} r s.

Definition Tx (A : Type) : Type := State → Outcome A.

#[global] Instance Tx_ret : MRet Tx := λ A a s, Done a s.

#[global] Instance Tx_bind : MBind Tx := λ A B k m s,
  match m s with
  | Done a s' => k a s'
  | Reverted r s' => Reverted r s'
  end.

Definition require (b : bool) (r : Revert) : Tx unit :=
  λ s, if b then Done () s else Reverted r s.

(** A call into the library that returns a value or reverts. *)
Definition external {A : Type} (o : option A) (r : Revert) : Tx A :=
  λ s, match o with Some a => Done a s | None => Reverted r s end.

Definition sload {A : Type} (f : State → A) : Tx A := λ s, Done (f s) s.

Definition sstore (f : State → State) : Tx unit := λ s, Done () (f s).

(** [conferences[id] = c], and the same for one field of the slot. *)
Definition write_conference (id : string) (c : Conference) (s : State) : State :=
  {| conferences := <[id := c]> (conferences s);
     conferenceIds := conferenceIds s;
     events := events s |}.

Definition push_id (id : string) (s : State) : State :=
  {| conferences := conferences s;
     conferenceIds := conferenceIds s ++ [id];
     events := events s |}.

Definition emit (e : Event) : Tx unit :=
  sstore (λ s, {| conferences := conferences s;
                  conferenceIds := conferenceIds s;
                  events := events s ++ [e] |}).

Definition set_isActive (b : bool) (c : Conference) : Conference :=
  {| conferenceId := conferenceId c; encryptedStreamKey := encryptedStreamKey c;
     creator := creator c; startTime := startTime c; endTime := endTime c;
     isActive := b;
     decryptedStreamKey := decryptedStreamKey c; isDecrypted := isDecrypted c |}.

Definition set_decryptedStreamKey (k : uint32) (c : Conference) : Conference :=
  {| conferenceId := conferenceId c; encryptedStreamKey := encryptedStreamKey c;
     creator := creator c; startTime := startTime c; endTime := endTime c;
     isActive := isActive c;
     decryptedStreamKey := k; isDecrypted := isDecrypted c |}.

Definition set_isDecrypted (b : bool) (c : Conference) : Conference :=
  {| conferenceId := conferenceId c; encryptedStreamKey := encryptedStreamKey c;
     creator := creator c; startTime := startTime c; endTime := endTime c;
     isActive := isActive c;
     decryptedStreamKey := decryptedStreamKey c; isDecrypted := b |}.

(** [bytes(conferences[id].conferenceId).length], the contract's test for
    "a conference with this id exists". *)
Definition stored_id_length (id : string) (s : State) : nat :=
  String.length (conferenceId (conferences s !!! id)).

Section Contract.
Context `{F : FHE}.

(** *** Mutating entry points *)

Definition createConference (env : Env) (id : string)
    (encryptedInput : externalEuint32) (inputProof : bytes)
    (tStart tEnd : uint256) : Tx unit :=
  len ← sload (stored_id_length id);
  require (len =? 0)%nat ConferenceAlreadyExists;;
  checked ← external (fromExternal encryptedInput inputProof) InputVerificationReverted;
  require (isInitialized checked) InvalidEncryptedInput;;
  require (tStart <? tEnd) InvalidTimeRange;;
  require (block_timestamp env <? tEnd) ConferenceHasAlreadyEnded;;
  handle ← external (fromExternal encryptedInput inputProof) InputVerificationReverted;
  sstore (write_conference id
            {| conferenceId := id;
               encryptedStreamKey := handle;
               creator := msg_sender env;
               startTime := tStart;
               endTime := tEnd;
               isActive := true;
               decryptedStreamKey := 0;
               isDecrypted := false |});;
  k ← sload (λ s, encryptedStreamKey (conferences s !!! id));
  require (allowThis k) AclReverted;;
  k' ← sload (λ s, encryptedStreamKey (conferences s !!! id));
  require (makePubliclyDecryptable k') AclReverted;;
  sstore (push_id id);;
  emit (ConferenceCreated id (msg_sender env)).

Definition decryptStreamKey (env : Env) (id : string)
    (abiEncodedClearKey decryptionProof : bytes) : Tx unit :=
  len ← sload (stored_id_length id);
  require (0 <? len)%nat ConferenceDoesNotExist;;
  decrypted ← sload (λ s, isDecrypted (conferences s !!! id));
  require (negb decrypted) StreamKeyAlreadyDecrypted;;
  t0 ← sload (λ s, startTime (conferences s !!! id));
  require (t0 <=? block_timestamp env) ConferenceHasNotStarted;;
  t1 ← sload (λ s, endTime (conferences s !!! id));
  require (block_timestamp env <=? t1) ConferenceHasEnded;;
  k ← sload (λ s, encryptedStreamKey (conferences s !!! id));
  let cts := [toBytes32 k] in
  require (checkSignatures cts abiEncodedClearKey decryptionProof)
          SignatureCheckReverted;;
  decodedKey ← external (abi_decode_uint32 abiEncodedClearKey) AbiDecodeReverted;
  sstore (λ s, write_conference id
                 (set_decryptedStreamKey decodedKey (conferences s !!! id)) s);;
  sstore (λ s, write_conference id
                 (set_isDecrypted true (conferences s !!! id)) s);;
  emit (StreamKeyDecrypted id decodedKey).

Definition endConference (env : Env) (id : string) : Tx unit :=
  len ← sload (stored_id_length id);
  require (0 <? len)%nat ConferenceDoesNotExist;;
  owner ← sload (λ s, creator (conferences s !!! id));
  require (msg_sender env =? owner) OnlyCreatorCanEndConference;;
  t1 ← sload (λ s, endTime (conferences s !!! id));
  require (t1 <? block_timestamp env) ConferenceIsStillActive;;
  sstore (λ s, write_conference id
                 (set_isActive false (conferences s !!! id)) s).

(** *** Views *)

Definition view {A : Type} (m : Tx A) (s : State) : result A :=
  match m s with
  | Done a _ => Ok a
  | Reverted r _ => Err r
  end.

Definition getEncryptedStreamKey (id : string) : State → result euint32 :=
  view (len ← sload (stored_id_length id);
        require (0 <? len)%nat ConferenceDoesNotExist;;
        sload (λ s, encryptedStreamKey (conferences s !!! id))).

(** Returns (creator, startTime, endTime, isActive, isDecrypted,
    decryptedStreamKey). *)
Definition getConferenceDetails (id : string)
    : State → result (address * uint256 * uint256 * bool * bool * uint32) :=
  view (len ← sload (stored_id_length id);
        require (0 <? len)%nat ConferenceDoesNotExist;;
        conf ← sload (λ s, conferences s !!! id);
        mret (creator conf, startTime conf, endTime conf,
              isActive conf, isDecrypted conf, decryptedStreamKey conf)).

Definition getAllConferenceIds (s : State) : list string := conferenceIds s.

Definition isConferenceActive (id : string) : State → result bool :=
  view (len ← sload (stored_id_length id);
        require (0 <? len)%nat ConferenceDoesNotExist;;
        sload (λ s, isActive (conferences s !!! id))).

(** The getter the compiler generates for
    [mapping(string => Conference) public conferences]: it has no guard
    and returns the slot's fields, written or not. *)
Definition conferences_getter (id : string) (s : State) : result Conference :=
  Ok (conferences s !!! id).

(** *** The ledger *)

(** A call either commits the storage its body produced or reverts. *)
Definition transact (body : Tx unit) (s : State) : result State :=
  match body s with
  | Done _ s' => Ok s'
  | Reverted r _ => Err r
  end.

Inductive Op : Type :=
| CreateConference (id : string) (encryptedInput : externalEuint32)
                   (inputProof : bytes) (tStart tEnd : uint256)
| DecryptStreamKey (id : string) (abiEncodedClearKey decryptionProof : bytes)
| EndConference (id : string).

Definition body (env : Env) (op : Op) : Tx unit :=
  match op with
  | CreateConference id h p t0 t1 => createConference env id h p t0 t1
  | DecryptStreamKey id k p => decryptStreamKey env id k p
  | EndConference id => endConference env id
  end.

Definition exec (env : Env) (op : Op) (s : State) : result State :=
  transact (body env op) s.

(** The storage after a call: a reverted call leaves it as it was. *)
Definition store_after (s : State) (r : result State) : State :=
  match r with
  | Ok s' => s'
  | Err _ => s
  end.

Definition step (s : State) (c : Env * Op) : State :=
  store_after s (exec c.1 c.2 s).

Definition run (calls : list (Env * Op)) (s : State) : State :=
  fold_left step calls s.

Inductive reachable : State → Prop :=
| reachable_init : reachable init
| reachable_step s env op : reachable s → reachable (step s (env, op)).

End Contract.

(** ** Post-states, invariant and the readings of the specification *)

Section Readings.
Context `{F : FHE}.

(** The storage a call leaves when it runs to its end. *)
Definition created (env : Env) (id : string) (k : euint32)
    (tStart tEnd : uint256) (s : State) : State :=
  {| conferences :=
       <[id := {| conferenceId := id; encryptedStreamKey := k;
                  creator := msg_sender env;
                  startTime := tStart; endTime := tEnd; isActive := true;
                  decryptedStreamKey := 0; isDecrypted := false |}]>
         (conferences s);
     conferenceIds := conferenceIds s ++ [id];
     events := events s ++ [ConferenceCreated id (msg_sender env)] |}.

Definition decrypted (id : string) (k : uint32) (s : State) : State :=
  {| conferences :=
       <[id := set_isDecrypted true
                 (set_decryptedStreamKey k (conferences s !!! id))]>
         (conferences s);
     conferenceIds := conferenceIds s;
     events := events s ++ [StreamKeyDecrypted id k] |}.

Definition ended (id : string) (s : State) : State :=
  write_conference id (set_isActive false (conferences s !!! id)) s.

(** What holds of every storage the contract can reach. *)
Record wf (s : State) : Prop := {
  wf_key : ∀ id c, conferences s !! id = Some c → conferenceId c = id;
  wf_empty : ∀ c, conferences s !! "" = Some c →
    isActive c = true ∧ isDecrypted c = false ∧ decryptedStreamKey c = 0;
  wf_ids : ∀ id, id ∈ conferenceIds s ↔ is_Some (conferences s !! id)
}.

(** The specification's error of a call, [None] for a call that succeeds. *)
Definition outcome {A : Type} (r : result A) : option SpecError :=
  match r with
  | Ok _ => None
  | Err e => Some (classify e)
  end.

(** [submitDecryption] as the specification words it: the four failures
    in order, and success otherwise. *)
Definition claimed_submitDecryption (s : State) (env : Env) (id : string)
    (clearValueEncoded proof : bytes) : option SpecError :=
  match conferences s !! id with
  | None => Some NotFound
  | Some c =>
    if isDecrypted c then Some AlreadyDecrypted
    else if (block_timestamp env <? startTime c) || (endTime c <? block_timestamp env)
         then Some WindowClosed
    else if negb (checkSignatures [toBytes32 (encryptedStreamKey c)]
                                  clearValueEncoded proof)
         then Some ProofInvalid
    else None
  end.

(** The same with the failure the contract adds: a claim that passed the
    signature check but is not the encoding of a [uint32]. *)
Definition amended_submitDecryption (s : State) (env : Env) (id : string)
    (clearValueEncoded proof : bytes) : option SpecError :=
  match claimed_submitDecryption s env id clearValueEncoded proof with
  | Some e => Some e
  | None =>
    match abi_decode_uint32 clearValueEncoded with
    | None => Some Unspecified
    | Some _ => None
    end
  end.

(** The reads that take a conference id. *)
Inductive ReadOp : Type :=
| GetConferenceDetails
| GetEncryptedStreamKey
| IsConferenceActive
| PublicConferences.

Definition read_outcome (rd : ReadOp) (id : string) (s : State)
    : option SpecError :=
  match rd with
  | GetConferenceDetails => outcome (getConferenceDetails id s)
  | GetEncryptedStreamKey => outcome (getEncryptedStreamKey id s)
  | IsConferenceActive => outcome (isConferenceActive id s)
  | PublicConferences => outcome (conferences_getter id s)
  end.

(** The [isActive] flag of the record stored for [id], if any. *)
Definition active_flag (id : string) (s : State) : option bool :=
  isActive <$> conferences s !! id.

Definition falls (id : string) (s s' : State) : bool :=
  bool_decide (active_flag id s = Some true ∧ active_flag id s' = Some false).

Definition rises (id : string) (s s' : State) : bool :=
  bool_decide (active_flag id s = Some false ∧ active_flag id s' = Some true).

(** How often a predicate on consecutive storages holds along a run. *)
Fixpoint count_steps (P : State → State → bool) (calls : list (Env * Op))
    (s : State) : nat :=
  match calls with
  | [] => 0
  | c :: cs => ((if P s (step s c) then 1 else 0) + count_steps P cs (step s c))%nat
  end.

(** The ids of the [createConference] calls of a run that succeeded. *)
Fixpoint created_ids (calls : list (Env * Op)) (s : State) : list string :=
  match calls with
  | [] => []
  | c :: cs =>
    match c.2, exec c.1 c.2 s with
    | CreateConference id _ _ _ _, Ok _ => [id]
    | _, _ => []
    end ++ created_ids cs (step s c)
  end.

Definition is_create (op : Op) : bool :=
  match op with CreateConference _ _ _ _ _ => true | _ => false end.

Definition decrypts (id : string) (op : Op) : bool :=
  match op with
  | DecryptStreamKey id' _ _ => bool_decide (id' = id)
  | _ => false
  end.

End Readings.

(** ** A test double for the FHE library

    It accepts an input or a decryption claim exactly when the proof that
    comes with it is not empty, and never refuses a permission. *)
Definition nonempty (p : bytes) : bool :=
  match p with [] => false | _ :: _ => true end.

#[global] Instance mockFHE : FHE := {|
  fromExternal h p := if nonempty p then Some h else None;
  isInitialized h := negb (h =? 0);
  allowThis _ := true;
  makePubliclyDecryptable _ := true;
  toBytes32 h := h;
  checkSignatures _ _ p := nonempty p
|}.

(** The same library with an access-control list that refuses the
    contract: [allowThis] reverts. *)
Definition refusingFHE : FHE := {|
  fromExternal h p := if nonempty p then Some h else None;
  isInitialized h := negb (h =? 0);
  allowThis _ := false;
  makePubliclyDecryptable _ := true;
  toBytes32 h := h;
  checkSignatures _ _ p := nonempty p
|}.

(** The ABI encoding of a [uint32]: one 32-byte big-endian word. *)
Definition abi_encode_uint32 (b3 b2 b1 b0 : Byte.byte) : bytes :=
  replicate 28 Byte.x00 ++ [b3; b2; b1; b0].

(** Sample calls: the creator is account 1, the window is [100, 200]. *)
Definition proof_ok : bytes := [Byte.x01].

Definition create_room (id : string) : Env * Op :=
  (mkEnv 1 50, CreateConference id 7 proof_ok 100 200).

(** Storage with one conference ["room"], and with one conference whose id
    is the empty string. *)
Definition room_open : State := step init (create_room "room").

Definition blank_open : State := step init (create_room "").

(** ** Further readings of the storage and of the event log *)

(** The conference id a call is about. *)
Definition target (op : Op) : string :=
  match op with
  | CreateConference id _ _ _ _ => id
  | DecryptStreamKey id _ _ => id
  | EndConference id => id
  end.

(** The fields no function of the contract assigns after creation. *)
Definition same_identity (c c' : Conference) : Prop :=
  conferenceId c' = conferenceId c ∧
  encryptedStreamKey c' = encryptedStreamKey c ∧
  creator c' = creator c ∧
  startTime c' = startTime c ∧
  endTime c' = endTime c.

(** The ids of the [ConferenceCreated] events of a log, in order, and the
    (id, key) pairs of its [StreamKeyDecrypted] events. *)
Definition created_event_ids (evs : list Event) : list string :=
  flat_map (λ e, match e with ConferenceCreated id _ => [id] | _ => [] end) evs.

Definition decrypted_events (evs : list Event) : list (string * Z) :=
  flat_map (λ e, match e with StreamKeyDecrypted id k => [(id, k)] | _ => [] end) evs.

(** The getter the compiler generates for [string[] public conferenceIds]:
    it reverts (here [None]) when the index is past the end. *)
Definition conferenceIds_getter (i : Z) (s : State) : option string :=
  if (0 <=? i) && (i <? Z.of_nat (length (conferenceIds s)))
  then conferenceIds s !! Z.to_nat i
  else None.

(** What holds of every stored record and of the log, besides [wf]. *)
Record sound (s : State) : Prop := {
  sound_window : ∀ id c, conferences s !! id = Some c → startTime c < endTime c;
  sound_key : ∀ id c, conferences s !! id = Some c →
    0 ≤ decryptedStreamKey c < 2 ^ 32 ∧
    (isDecrypted c = false → decryptedStreamKey c = 0);
  sound_created : created_event_ids (events s) = conferenceIds s;
  sound_decrypted : ∀ id k, (id, k) ∈ decrypted_events (events s) ↔
    ∃ c, conferences s !! id = Some c ∧ isDecrypted c = true ∧
         decryptedStreamKey c = k;
  sound_decrypted_once : NoDup (decrypted_events (events s)).*1;
  sound_ids_once : NoDup (filter (λ id, id ≠ "") (conferenceIds s))
}.

(** ** The client: the pure parts of [App.tsx] *)

Module App.

(** [addToHistory]: the updater passed to [setOperationHistory].  [stamp]
    is the string [new Date().toLocaleTimeString()] gave. *)
Definition addToHistory (stamp action : string) (prev : list string) : list string :=
  (stamp +:+ ": " +:+ action) :: take 9 prev.

(** The log after a sequence of (stamp, action) additions, oldest first. *)
Definition history (entries : list (string * string)) : list string :=
  fold_left (λ h e, addToHistory e.1 e.2 h) entries [].








(** The loop of [loadConferences] and the object it passes to [setStats].
    What the other contract returns is a parameter: [getBusinessData id] is
    [None] when the call throws, and [num] with [toNumber], [falsy] and
    [zero] stand for JavaScript numbers, [Number(_)], truthiness and [0]. *)
Section Load.
Context {raw num : Type} (toNumber : raw → num) (falsy : num → bool) (zero : num).

Record BusinessData : Type := mkBusinessData {
  bd_name : string;
  bd_publicValue1 : raw;
  bd_publicValue2 : raw;
  bd_timestamp : raw;
  bd_creator : string;
  bd_isVerified : bool;
  bd_decryptedValue : raw
}.

Record ConferenceRoom : Type := mkRoom {
  id : string;
  room_name : string;
  encryptedKey : string;
  participantLimit : num;
  room_duration : num;
  timestamp : num;
  creator : string;
  isActive : bool;
  isVerified : bool;
  decryptedValue : num
}.

Record Stats : Type := mkStats { total : nat; active : nat; verified : nat }.

(** [x || 0] *)
Definition or_zero (x : num) : num := if falsy x then zero else x.

Definition room_of (businessId : string) (businessData : BusinessData) : ConferenceRoom :=
  {| id := businessId;
     room_name := bd_name businessData;
     encryptedKey := businessId;
     participantLimit := or_zero (toNumber (bd_publicValue1 businessData));
     room_duration := or_zero (toNumber (bd_publicValue2 businessData));
     timestamp := toNumber (bd_timestamp businessData);
     creator := bd_creator businessData;
     isActive := true;
     isVerified := bd_isVerified businessData;
     decryptedValue := or_zero (toNumber (bd_decryptedValue businessData)) |}.

Fixpoint collect (getBusinessData : string → option BusinessData)
    (businessIds : list string) : list ConferenceRoom :=
  match businessIds with
  | [] => []
  | businessId :: rest =>
    match getBusinessData businessId with
    | Some businessData => room_of businessId businessData :: collect getBusinessData rest
    | None => collect getBusinessData rest
    end
  end.

Definition stats_of (conferencesList : list ConferenceRoom) : Stats :=
  {| total := length conferencesList;
     active := length (filter (λ c, isActive c = true) conferencesList);
     verified := length (filter (λ c, isVerified c = true) conferencesList) |}.

End Load.

End App.

(** ** The decoder on sample payloads *)

Example decode_word :
  abi_decode_uint32 (abi_encode_uint32 Byte.x00 Byte.x00 Byte.x01 Byte.x02) = Some 258.
Proof. reflexivity. Qed.

Example decode_short : abi_decode_uint32 [Byte.x01; Byte.x02] = None.
Proof. reflexivity. Qed.

Example decode_wide : abi_decode_uint32 (replicate 32 Byte.xff) = None.
Proof. reflexivity. Qed.

Example decode_trailing :
  abi_decode_uint32 (abi_encode_uint32 Byte.x00 Byte.x00 Byte.x00 Byte.x07 ++ [Byte.xff])
    = Some 7.
Proof. reflexivity. Qed.

Lemma abi_decode_uint32_range data k :
  abi_decode_uint32 data = Some k → 0 ≤ k < 2 ^ 32.
Proof.
  unfold abi_decode_uint32.
  destruct (length data <? 32)%nat; [done|].
  destruct (Z.ltb_spec (be_word (take 32 data)) (2 ^ 32)); [|done].
  intros [= <-]. split; [|done].
  unfold be_word. generalize (take 32 data). intros bs.
  assert (∀ acc, 0 ≤ acc →
            0 ≤ fold_left (λ acc b, acc * 256 + Z.of_N (Byte.to_N b)) bs acc) as Hfold.
  { induction bs as [|b bs IH]; intros acc Hacc; simpl; [done|]. apply IH. lia. }
  by apply Hfold.
Qed.

(** ** The outcome of each body, guard by guard *)

Section Bodies.
Context `{F : FHE}.

Lemma createConference_eq env id h p t0 t1 s :
  createConference env id h p t0 t1 s =
  if negb (stored_id_length id s =? 0)%nat then Reverted ConferenceAlreadyExists s
  else match fromExternal h p with
       | None => Reverted InputVerificationReverted s
       | Some k =>
         if negb (isInitialized k) then Reverted InvalidEncryptedInput s
         else if negb (t0 <? t1) then Reverted InvalidTimeRange s
         else if negb (block_timestamp env <? t1) then Reverted ConferenceHasAlreadyEnded s
         else
           let rec := {| conferenceId := id; encryptedStreamKey := k;
                         creator := msg_sender env;
                         startTime := t0; endTime := t1; isActive := true;
                         decryptedStreamKey := 0; isDecrypted := false |} in
           if negb (allowThis k) then Reverted AclReverted (write_conference id rec s)
           else if negb (makePubliclyDecryptable k)
                then Reverted AclReverted (write_conference id rec s)
                else Done () (created env id k t0 t1 s)
       end.
Proof.
  unfold createConference, mbind, Tx_bind, require, external, sload, sstore, emit.
  destruct (stored_id_length id s =? 0)%nat; simpl; [|done].
  destruct (fromExternal h p) as [k|]; simpl; [|done].
  destruct (isInitialized k); simpl; [|done].
  destruct (t0 <? t1); simpl; [|done].
  destruct (block_timestamp env <? t1); simpl; [|done].
  rewrite !lookup_total_insert_eq; simpl.
  destruct (allowThis k); simpl; [|done].
  rewrite !lookup_total_insert_eq; simpl.
  destruct (makePubliclyDecryptable k); simpl; done.
Qed.

Lemma decryptStreamKey_eq env id key proof s :
  decryptStreamKey env id key proof s =
  let c := conferences s !!! id in
  if negb (0 <? stored_id_length id s)%nat then Reverted ConferenceDoesNotExist s
  else if isDecrypted c then Reverted StreamKeyAlreadyDecrypted s
  else if negb (startTime c <=? block_timestamp env) then Reverted ConferenceHasNotStarted s
  else if negb (block_timestamp env <=? endTime c) then Reverted ConferenceHasEnded s
  else if negb (checkSignatures [toBytes32 (encryptedStreamKey c)] key proof)
       then Reverted SignatureCheckReverted s
  else match abi_decode_uint32 key with
       | None => Reverted AbiDecodeReverted s
       | Some k => Done () (decrypted id k s)
       end.
Proof.
  unfold decryptStreamKey, mbind, Tx_bind, require, external, sload, sstore, emit.
  destruct (0 <? stored_id_length id s)%nat; simpl; [|done].
  destruct (isDecrypted (conferences s !!! id)); simpl; [done|].
  destruct (startTime (conferences s !!! id) <=? block_timestamp env); simpl; [|done].
  destruct (block_timestamp env <=? endTime (conferences s !!! id)); simpl; [|done].
  destruct (checkSignatures _ key proof); simpl; [|done].
  destruct (abi_decode_uint32 key) as [k|]; simpl; [|done].
  unfold decrypted, write_conference; simpl.
  by rewrite lookup_total_insert_eq, insert_insert_eq.
Qed.

Lemma endConference_eq env id s :
  endConference env id s =
  let c := conferences s !!! id in
  if negb (0 <? stored_id_length id s)%nat then Reverted ConferenceDoesNotExist s
  else if negb (msg_sender env =? creator c) then Reverted OnlyCreatorCanEndConference s
  else if negb (endTime c <? block_timestamp env) then Reverted ConferenceIsStillActive s
  else Done () (ended id s).
Proof.
  unfold endConference, mbind, Tx_bind, require, sload, sstore.
  destruct (0 <? stored_id_length id s)%nat; simpl; [|done].
  destruct (msg_sender env =? creator (conferences s !!! id)); simpl; [|done].
  destruct (endTime (conferences s !!! id) <? block_timestamp env); simpl; done.
Qed.

End Bodies.

(** ** When a call succeeds, and what it leaves *)

Section Calls.
Context `{F : FHE}.

Lemma exec_create_Ok env id h p t0 t1 s s' :
  exec env (CreateConference id h p t0 t1) s = Ok s' ↔
  stored_id_length id s = 0%nat ∧
  ∃ k, fromExternal h p = Some k ∧ isInitialized k = true ∧
       t0 < t1 ∧ block_timestamp env < t1 ∧
       allowThis k = true ∧ makePubliclyDecryptable k = true ∧
       s' = created env id k t0 t1 s.
Proof.
  unfold exec, transact, body. rewrite createConference_eq.
  destruct (Nat.eqb_spec (stored_id_length id s) 0); simpl;
    [|split; [done | by intros [? _]]].
  destruct (fromExternal h p) as [k|];
    [|split; [done | by intros [_ (? & ? & _)]]].
  destruct (isInitialized k) eqn:Hk; simpl;
    [|split; [done | intros [_ (? & ? & ? & _)]; congruence]].
  destruct (Z.ltb_spec t0 t1); simpl;
    [|split; [done | intros [_ (? & ? & ? & ? & _)]; lia]].
  destruct (Z.ltb_spec (block_timestamp env) t1); simpl;
    [|split; [done | intros [_ (? & ? & ? & ? & ? & _)]; lia]].
  destruct (allowThis k) eqn:Ha; simpl;
    [|split; [done | intros [_ (? & ? & ? & ? & ? & ? & _)]; congruence]].
  destruct (makePubliclyDecryptable k) eqn:Hm; simpl;
    [|split; [done | intros [_ (? & ? & ? & ? & ? & ? & ? & _)]; congruence]].
  split.
  - intros [= <-]. split; [done|]. by exists k.
  - intros [_ (k' & [= <-] & _ & _ & _ & _ & _ & ->)]. done.
Qed.

Lemma exec_decrypt_Ok env id key proof s s' :
  exec env (DecryptStreamKey id key proof) s = Ok s' ↔
  let c := conferences s !!! id in
  (0 < stored_id_length id s)%nat ∧ isDecrypted c = false ∧
  startTime c ≤ block_timestamp env ∧ block_timestamp env ≤ endTime c ∧
  checkSignatures [toBytes32 (encryptedStreamKey c)] key proof = true ∧
  ∃ k, abi_decode_uint32 key = Some k ∧ s' = decrypted id k s.
Proof.
  unfold exec, transact, body. rewrite decryptStreamKey_eq. simpl.
  destruct (Nat.ltb_spec 0 (stored_id_length id s)); simpl;
    [|split; [done | intros [? _]; lia]].
  destruct (isDecrypted (conferences s !!! id)); simpl;
    [split; [done | by intros (_ & ? & _)]|].
  destruct (Z.leb_spec (startTime (conferences s !!! id)) (block_timestamp env));
    simpl; [|split; [done | intros (_ & _ & ? & _); lia]].
  destruct (Z.leb_spec (block_timestamp env) (endTime (conferences s !!! id)));
    simpl; [|split; [done | intros (_ & _ & _ & ? & _); lia]].
  destruct (checkSignatures _ key proof); simpl;
    [|split; [done | by intros (_ & _ & _ & _ & ? & _)]].
  destruct (abi_decode_uint32 key) as [k|];
    [|split; [done | by intros (_ & _ & _ & _ & _ & ? & ? & _)]].
  split.
  - intros [= <-]. repeat split; try done. by exists k.
  - intros (_ & _ & _ & _ & _ & k' & [= <-] & ->). done.
Qed.

Lemma exec_end_Ok env id s s' :
  exec env (EndConference id) s = Ok s' ↔
  let c := conferences s !!! id in
  (0 < stored_id_length id s)%nat ∧ msg_sender env = creator c ∧
  endTime c < block_timestamp env ∧ s' = ended id s.
Proof.
  unfold exec, transact, body. rewrite endConference_eq. simpl.
  destruct (Nat.ltb_spec 0 (stored_id_length id s)); simpl;
    [|split; [done | intros [? _]; lia]].
  destruct (Z.eqb_spec (msg_sender env) (creator (conferences s !!! id)));
    simpl; [|split; [done | by intros (_ & ? & _)]].
  destruct (Z.ltb_spec (endTime (conferences s !!! id)) (block_timestamp env));
    simpl; [|split; [done | intros (_ & _ & ? & _); lia]].
  split.
  - by intros [= <-].
  - by intros (_ & _ & _ & ->).
Qed.

(** *** The contract's existence test, read on the store *)

Lemma stored_id_length_None id s :
  conferences s !! id = None → stored_id_length id s = 0%nat.
Proof.
  intros H. unfold stored_id_length.
  by rewrite lookup_total_alt, H.
Qed.

Lemma stored_id_length_Some id c s :
  wf s → conferences s !! id = Some c → stored_id_length id s = String.length id.
Proof.
  intros Hwf H. unfold stored_id_length.
  rewrite (lookup_total_correct _ _ _ H). by rewrite (wf_key _ Hwf _ _ H).
Qed.

Lemma length_zero_empty (x : string) : String.length x = 0%nat ↔ x = "".
Proof. destruct x; simpl; split; (done || lia || idtac). Qed.

Lemma stored_id_positive id s :
  wf s → (0 < stored_id_length id s)%nat ↔ id ≠ "" ∧ is_Some (conferences s !! id).
Proof.
  intros Hwf. destruct (conferences s !! id) as [c|] eqn:H.
  - rewrite (stored_id_length_Some _ _ _ Hwf H).
    split.
    + intros Hlt. split; [|by eexists]. intros ->. simpl in Hlt. lia.
    + intros [Hne _]. destruct id; [done | simpl; lia].
  - rewrite (stored_id_length_None _ _ H). split; [lia|].
    intros [_ [? ?]]. done.
Qed.

Lemma stored_id_ltb id c s :
  wf s → id ≠ "" → conferences s !! id = Some c →
  (0 <? stored_id_length id s)%nat = true.
Proof.
  intros Hwf Hne Hc. apply Nat.ltb_lt, stored_id_positive; [done|].
  split; [done | by eexists].
Qed.

Lemma stored_id_zero id s :
  wf s → stored_id_length id s = 0%nat ↔ id = "" ∨ conferences s !! id = None.
Proof.
  intros Hwf. destruct (conferences s !! id) as [c|] eqn:H.
  - rewrite (stored_id_length_Some _ _ _ Hwf H), length_zero_empty.
    split; [by left | by intros [?|?]].
  - rewrite (stored_id_length_None _ _ H). split; [by right | done].
Qed.

End Calls.

(** ** The invariant holds of every reachable storage *)

Section Invariant.
Context `{F : FHE}.

Lemma wf_init : wf init.
Proof.
  split; simpl.
  - intros id c. by rewrite lookup_empty.
  - intros c. by rewrite lookup_empty.
  - intros id. rewrite elem_of_nil, lookup_empty. split; [done | by intros [? ?]].
Qed.

Lemma wf_created env id k t0 t1 s :
  wf s → stored_id_length id s = 0%nat → wf (created env id k t0 t1 s).
Proof.
  intros Hwf Hlen. split; simpl.
  - intros id' c. rewrite lookup_insert_Some.
    intros [[<- <-] | [_ H]]; [done | by apply (wf_key _ Hwf)].
  - intros c. rewrite lookup_insert_Some.
    intros [[_ <-] | [_ H]]; [done | by apply (wf_empty _ Hwf)].
  - intros id'. rewrite elem_of_app, list_elem_of_singleton, lookup_insert_is_Some.
    rewrite (wf_ids _ Hwf).
    destruct (decide (id = id')) as [->|Hne]; [tauto|].
    split; [intros [?|?]; [by right | congruence] | intros [?|[_ ?]]; [done | by left]].
Qed.

(** Rewriting the slot of a stored, non-empty id while keeping its
    [conferenceId] field. *)
Lemma wf_rewrite id c' ev s :
  wf s → (0 < stored_id_length id s)%nat →
  conferenceId c' = conferenceId (conferences s !!! id) →
  wf {| conferences := <[id := c']> (conferences s);
        conferenceIds := conferenceIds s; events := ev |}.
Proof.
  intros Hwf Hlen Hid.
  apply stored_id_positive in Hlen as [Hne [c0 Hc0]]; [|done].
  rewrite (lookup_total_correct _ _ _ Hc0), (wf_key _ Hwf _ _ Hc0) in Hid.
  split; simpl.
  - intros id' c. rewrite lookup_insert_Some.
    intros [[<- <-] | [_ H]]; [done | by apply (wf_key _ Hwf)].
  - intros c. rewrite lookup_insert_Some.
    intros [[? _] | [_ H]]; [done | by apply (wf_empty _ Hwf)].
  - intros id'. rewrite lookup_insert_is_Some, (wf_ids _ Hwf).
    destruct (decide (id = id')) as [<-|Hne']; [|tauto].
    split; [by left | by eexists].
Qed.

Lemma wf_exec env op s s' : wf s → exec env op s = Ok s' → wf s'.
Proof.
  intros Hwf. destruct op as [id h p t0 t1 | id key proof | id].
  - rewrite exec_create_Ok. intros [Hlen (k & _ & _ & _ & _ & _ & _ & ->)].
    by apply wf_created.
  - rewrite exec_decrypt_Ok. intros (Hlen & _ & _ & _ & _ & k & _ & ->).
    by apply wf_rewrite.
  - rewrite exec_end_Ok. intros (Hlen & _ & _ & ->).
    by apply wf_rewrite.
Qed.

Lemma wf_step s c : wf s → wf (step s c).
Proof.
  intros Hwf. unfold step.
  destruct (exec c.1 c.2 s) as [s'|r] eqn:H; simpl; [|done].
  by eapply wf_exec.
Qed.

Lemma wf_run calls s : wf s → wf (run calls s).
Proof.
  revert s. induction calls as [|c cs IH]; intros s Hwf; simpl; [done|].
  by apply IH, wf_step.
Qed.

Lemma reachable_wf s : reachable s → wf s.
Proof. induction 1; [apply wf_init | by apply wf_step]. Qed.

Lemma reachable_run calls s : reachable s → reachable (run calls s).
Proof.
  revert s. induction calls as [|[env op] cs IH]; intros s Hs; simpl; [done|].
  apply IH. by constructor.
Qed.

Lemma run_app calls1 calls2 s : run (calls1 ++ calls2) s = run calls2 (run calls1 s).
Proof. apply fold_left_app. Qed.

End Invariant.

(** ** Reads *)

Section Reads.
Context `{F : FHE}.

Lemma getConferenceDetails_eq id s :
  getConferenceDetails id s =
  if (0 <? stored_id_length id s)%nat
  then let conf := conferences s !!! id in
       Ok (creator conf, startTime conf, endTime conf,
           isActive conf, isDecrypted conf, decryptedStreamKey conf)
  else Err ConferenceDoesNotExist.
Proof.
  unfold getConferenceDetails, view, mbind, Tx_bind, require, sload, mret, Tx_ret.
  by destruct (0 <? stored_id_length id s)%nat.
Qed.

Lemma getEncryptedStreamKey_eq id s :
  getEncryptedStreamKey id s =
  if (0 <? stored_id_length id s)%nat
  then Ok (encryptedStreamKey (conferences s !!! id))
  else Err ConferenceDoesNotExist.
Proof.
  unfold getEncryptedStreamKey, view, mbind, Tx_bind, require, sload.
  by destruct (0 <? stored_id_length id s)%nat.
Qed.

Lemma isConferenceActive_eq id s :
  isConferenceActive id s =
  if (0 <? stored_id_length id s)%nat
  then Ok (isActive (conferences s !!! id))
  else Err ConferenceDoesNotExist.
Proof.
  unfold isConferenceActive, view, mbind, Tx_bind, require, sload.
  by destruct (0 <? stored_id_length id s)%nat.
Qed.

(** A created conference with a non-empty id reads back as created. *)
Lemma create_then_get env id h p t0 t1 s s' :
  id ≠ "" →
  exec env (CreateConference id h p t0 t1) s = Ok s' →
  getConferenceDetails id s' = Ok (msg_sender env, t0, t1, true, false, 0).
Proof.
  intros Hne. rewrite exec_create_Ok.
  intros [_ (k & _ & _ & _ & _ & _ & _ & ->)].
  rewrite getConferenceDetails_eq. unfold stored_id_length, created; simpl.
  rewrite lookup_total_insert_eq; simpl.
  destruct id; [done | done].
Qed.

(** A stored non-empty id cannot be created again. *)
Lemma create_existing_fails env id h p t0 t1 s :
  wf s → id ≠ "" → is_Some (conferences s !! id) →
  exec env (CreateConference id h p t0 t1) s = Err ConferenceAlreadyExists.
Proof.
  intros Hwf Hne Hsome.
  assert (0 < stored_id_length id s)%nat as Hlen by by apply stored_id_positive.
  unfold exec, transact, body. rewrite createConference_eq.
  destruct (Nat.eqb_spec (stored_id_length id s) 0); [lia | done].
Qed.

(** A window that is empty or already over makes [createConference] fail,
    with "Invalid time range" or "Conference has already ended" when the
    id is free and the encrypted input is accepted. *)
Lemma create_bad_window env id h p t0 t1 s :
  t1 ≤ t0 ∨ t1 ≤ block_timestamp env →
  ∃ r, exec env (CreateConference id h p t0 t1) s = Err r ∧
       (stored_id_length id s = 0%nat →
        ∀ k, fromExternal h p = Some k → isInitialized k = true →
             classify r = InvalidWindow).
Proof.
  intros Hbad. unfold exec, transact, body. rewrite createConference_eq.
  destruct (Nat.eqb_spec (stored_id_length id s) 0) as [Hz|Hnz]; simpl;
    [|eexists; split; [done | intros; lia]].
  destruct (fromExternal h p) as [k|]; [|eexists; split; [done | intros; congruence]].
  destruct (isInitialized k) eqn:Hk; simpl;
    [|eexists; split; [done | intros _ ? [= <-]; congruence]].
  destruct (Z.ltb_spec t0 t1); simpl; [|by eexists].
  destruct (Z.ltb_spec (block_timestamp env) t1); simpl; [lia | by eexists].
Qed.


(** [endConference] on a stored non-empty id: the three guards in order. *)
Lemma end_existing env id c s :
  wf s → id ≠ "" → conferences s !! id = Some c →
  exec env (EndConference id) s =
  if negb (msg_sender env =? creator c) then Err OnlyCreatorCanEndConference
  else if negb (endTime c <? block_timestamp env) then Err ConferenceIsStillActive
  else Ok (ended id s).
Proof.
  intros Hwf Hne Hc.
  unfold exec, transact, body. rewrite endConference_eq. simpl.
  rewrite (lookup_total_correct _ _ _ Hc), (stored_id_ltb _ _ _ Hwf Hne Hc). simpl.
  destruct (msg_sender env =? creator c); simpl; [|done].
  by destruct (endTime c <? block_timestamp env).
Qed.

Lemma end_then_active env id s s' :
  exec env (EndConference id) s = Ok s' →
  isConferenceActive id s' = Ok false.
Proof.
  rewrite exec_end_Ok. intros (Hlen & _ & _ & ->).
  rewrite isConferenceActive_eq.
  unfold stored_id_length, ended, write_conference in *; simpl.
  rewrite lookup_total_insert_eq; simpl.
  by destruct (Nat.ltb_spec 0 (String.length (conferenceId (conferences s !!! id)))); [|lia].
Qed.

End Reads.

(** The specification's example: start 100, end 50. *)
Example create_start_after_end :
  exec (mkEnv 1 10) (CreateConference "room" 7 proof_ok 100 50) init
    = Err InvalidTimeRange ∧
  conferences (step init (mkEnv 1 10, CreateConference "room" 7 proof_ok 100 50)) !! "room"
    = None.
Proof. split; reflexivity. Qed.

(** ** The empty conference id, on the test double *)

(** C1.  For every id, a successful create followed by get(id) returns the
    record just created.  Evaluated at the empty id: [createConference]
    succeeds and stores the record, and [getConferenceDetails] on the same
    id reverts with "Conference does not exist". *)
Theorem create_then_get_empty_id :
  ∃ s', exec (mkEnv 1 50) (CreateConference "" 7 proof_ok 100 200) init = Ok s' ∧
        conferences s' !! "" =
          Some {| conferenceId := ""; encryptedStreamKey := 7; creator := 1;
                  startTime := 100; endTime := 200; isActive := true;
                  decryptedStreamKey := 0; isDecrypted := false |} ∧
        getConferenceDetails "" s' = Err ConferenceDoesNotExist.
Proof. eexists. split; [reflexivity|]. split; reflexivity. Qed.

(** C4.  Creating an id that is already stored fails with AlreadyExists and
    leaves the stored record as the first call made it.  Evaluated at the
    empty id: the second [createConference] by another account succeeds,
    replaces the record and appends the id a second time. *)
Theorem create_twice_empty_id :
  conferences blank_open !! "" =
    Some {| conferenceId := ""; encryptedStreamKey := 7; creator := 1;
            startTime := 100; endTime := 200; isActive := true;
            decryptedStreamKey := 0; isDecrypted := false |} ∧
  ∃ s', exec (mkEnv 2 60) (CreateConference "" 9 proof_ok 300 400) blank_open = Ok s' ∧
        conferences s' !! "" =
          Some {| conferenceId := ""; encryptedStreamKey := 9; creator := 2;
                  startTime := 300; endTime := 400; isActive := true;
                  decryptedStreamKey := 0; isDecrypted := false |} ∧
        getAllConferenceIds s' = [""; ""].
Proof. split; [reflexivity|]. eexists. split; [reflexivity|]. split; reflexivity. Qed.

(** C5.  end(id) fails with NotFound only when no record is stored, with
    Forbidden for a caller other than the creator, with StillActive up to
    endTime, and otherwise succeeds.  Evaluated at the empty id: the record
    is stored with creator 1 and endTime 200, and [endConference] reverts
    with "Conference does not exist" both for the creator after endTime
    and for another account. *)
Theorem end_empty_id_not_found :
  creator <$> conferences blank_open !! "" = Some 1 ∧
  endTime <$> conferences blank_open !! "" = Some 200 ∧
  exec (mkEnv 1 300) (EndConference "") blank_open = Err ConferenceDoesNotExist ∧
  exec (mkEnv 2 300) (EndConference "") blank_open = Err ConferenceDoesNotExist ∧
  isActive <$> conferences blank_open !! "" = Some true.
Proof. repeat split; reflexivity. Qed.

(** ** Reads of an id that was never stored *)

(** C7, as stated: every read that takes an id fails with NotFound when no
    record is stored for it.  The getter generated for the public mapping
    is such a read and returns the all-zero record. *)
Lemma public_getter_returns_default :
  ¬ (∀ (s : State) (id : string) (rd : ReadOp),
       conferences s !! id = None → read_outcome rd id s = Some NotFound).
Proof.
  intros H. specialize (H init "room" PublicConferences eq_refl).
  discriminate H.
Qed.

(** C7, amended.  For an id with no stored record the three guarded reads
    ([getConferenceDetails], [getEncryptedStreamKey], [isConferenceActive])
    revert with "Conference does not exist"; the generated getter
    [conferences(id)] returns the all-zero record. *)
Theorem reads_of_unknown_id (s : State) (id : string) :
  conferences s !! id = None →
  getConferenceDetails id s = Err ConferenceDoesNotExist ∧
  getEncryptedStreamKey id s = Err ConferenceDoesNotExist ∧
  isConferenceActive id s = Err ConferenceDoesNotExist ∧
  classify ConferenceDoesNotExist = NotFound ∧
  conferences_getter id s = Ok zeroConference.
Proof.
  intros H.
  rewrite getConferenceDetails_eq, getEncryptedStreamKey_eq, isConferenceActive_eq.
  rewrite (stored_id_length_None _ _ H). simpl.
  repeat split. unfold conferences_getter. by rewrite lookup_total_alt, H.
Qed.

Lemma reads_of_unknown_id_witness :
  conferences room_open !! "lobby" = None ∧
  getConferenceDetails "lobby" room_open = Err ConferenceDoesNotExist ∧
  conferences_getter "lobby" room_open = Ok zeroConference.
Proof.
  split; [reflexivity|].
  destruct (reads_of_unknown_id room_open "lobby" eq_refl) as (H1 & _ & _ & _ & H2).
  split; [exact H1 | exact H2].
Defined.

(** ** A call that reverts *)

(** C9.  A call that fails leaves the mapping and the id list as they were.
    The ledger discards what a reverted body wrote; and no body has written
    anything when one of its own guards, the input verification, the
    signature check or the decoder reverts: storage differs from the
    initial one only if the revert comes from the two permission calls that
    follow the write in [createConference]. *)
Theorem failed_call_leaves_store `{F : FHE} (env : Env) (op : Op) (s : State) (r : Revert) :
  exec env op s = Err r →
  step s (env, op) = s ∧
  ∃ sp, body env op s = Reverted r sp ∧ (r ≠ AclReverted → sp = s).
Proof.
  intros H. split; [unfold step; simpl; by rewrite H|].
  unfold exec, transact in H.
  destruct op as [id h p t0 t1 | id key proof | id]; simpl in *.
  - rewrite createConference_eq in *.
    destruct (negb _); [injection H as <-; by eexists|].
    destruct (fromExternal h p) as [k|]; [|injection H as <-; by eexists].
    repeat (destruct (negb _); [injection H as <-; by eexists|]).
    done.
  - rewrite decryptStreamKey_eq in *. simpl in *.
    destruct (negb _); [injection H as <-; by eexists|].
    destruct (isDecrypted _); [injection H as <-; by eexists|].
    repeat (destruct (negb _); [injection H as <-; by eexists|]).
    destruct (abi_decode_uint32 key); [done | injection H as <-; by eexists].
  - rewrite endConference_eq in *. simpl in *.
    repeat (destruct (negb _); [injection H as <-; by eexists|]).
    done.
Qed.

(** Under a library whose [allowThis] reverts, the body of
    [createConference] has already written the record when it stops; the
    committed storage is still the initial one. *)
Lemma acl_revert_after_write :
  ∃ sp, body (F := refusingFHE) (mkEnv 1 50)
          (CreateConference "room" 7 proof_ok 100 200) init
          = Reverted AclReverted sp ∧
        is_Some (conferences sp !! "room") ∧
        step (F := refusingFHE) init
          (mkEnv 1 50, CreateConference "room" 7 proof_ok 100 200) = init.
Proof. eexists. split; [reflexivity|]. split; [by eexists | reflexivity]. Qed.

Lemma failed_call_leaves_store_witness :
  exec (mkEnv 1 50) (CreateConference "room" 7 proof_ok 200 100) room_open
    = Err ConferenceAlreadyExists ∧
  step room_open (mkEnv 1 50, CreateConference "room" 7 proof_ok 200 100) = room_open.
Proof.
  split; [reflexivity|].
  exact (proj1 (failed_call_leaves_store (mkEnv 1 50)
                  (CreateConference "room" 7 proof_ok 200 100) room_open
                  ConferenceAlreadyExists eq_refl)).
Defined.

(** ** The empty id in every reachable storage *)

(** C10.  In every reachable storage the existence test reads length zero
    for the empty id, whether or not a record is stored for it.  So
    [createConference] on the empty id never reverts with "Conference
    already exists", and when it succeeds it overwrites the record; and
    [getConferenceDetails], [getEncryptedStreamKey], [isConferenceActive],
    [decryptStreamKey] and [endConference] on the empty id all revert with
    "Conference does not exist". *)
Theorem empty_id_guard `{F : FHE} (s : State) :
  reachable s →
  stored_id_length "" s = 0%nat ∧
  (∀ env h p t0 t1,
     exec env (CreateConference "" h p t0 t1) s ≠ Err ConferenceAlreadyExists) ∧
  (∀ env h p t0 t1 s',
     exec env (CreateConference "" h p t0 t1) s = Ok s' →
     ∃ k, fromExternal h p = Some k ∧
          conferences s' !! "" =
            Some {| conferenceId := ""; encryptedStreamKey := k;
                    creator := msg_sender env;
                    startTime := t0; endTime := t1; isActive := true;
                    decryptedStreamKey := 0; isDecrypted := false |}) ∧
  getConferenceDetails "" s = Err ConferenceDoesNotExist ∧
  getEncryptedStreamKey "" s = Err ConferenceDoesNotExist ∧
  isConferenceActive "" s = Err ConferenceDoesNotExist ∧
  (∀ env key proof,
     exec env (DecryptStreamKey "" key proof) s = Err ConferenceDoesNotExist) ∧
  (∀ env, exec env (EndConference "") s = Err ConferenceDoesNotExist).
Proof.
  intros Hs. apply reachable_wf in Hs as Hwf.
  assert (stored_id_length "" s = 0%nat) as Hlen
    by (apply stored_id_zero; [done | by left]).
  split; [done|]. split; [|split].
  - intros env h p t0 t1. unfold exec, transact, body.
    rewrite createConference_eq, Hlen. simpl.
    destruct (fromExternal h p) as [k|]; [|done].
    repeat (destruct (negb _); [done|]). done.
  - intros env h p t0 t1 s'. rewrite exec_create_Ok.
    intros [_ (k & Hk & _ & _ & _ & _ & _ & ->)].
    exists k. split; [done|]. unfold created; simpl. apply lookup_insert_eq.
  - rewrite getConferenceDetails_eq, getEncryptedStreamKey_eq, isConferenceActive_eq.
    rewrite Hlen. simpl. repeat split.
    + intros env key proof. unfold exec, transact, body.
      rewrite decryptStreamKey_eq. simpl. by rewrite Hlen.
    + intros env. unfold exec, transact, body.
      rewrite endConference_eq. simpl. by rewrite Hlen.
Qed.

Lemma empty_id_guard_witness :
  is_Some (conferences blank_open !! "") ∧
  getConferenceDetails "" blank_open = Err ConferenceDoesNotExist ∧
  exec (mkEnv 1 150) (DecryptStreamKey "" [] proof_ok) blank_open
    = Err ConferenceDoesNotExist.
Proof.
  split; [by eexists|].
  destruct (empty_id_guard blank_open
              (reachable_step init (mkEnv 1 50)
                 (CreateConference "" 7 proof_ok 100 200) reachable_init))
    as (_ & _ & _ & Hget & _ & _ & Hdec & _).
  split; [exact Hget | exact (Hdec (mkEnv 1 150) [] proof_ok)].
Defined.

(** ** [decryptStreamKey], guard by guard *)

(** C2, as stated: the call succeeds exactly when the record exists, is not
    yet decrypted, the time is inside the window and the signature check
    accepts.  On ["room"], inside the window, with a claim the check
    accepts but whose cleartext is the empty byte string, the four
    conditions are met and the call reverts in [abi.decode]. *)
Lemma decode_failure_after_check :
  reachable room_open ∧
  claimed_submitDecryption room_open (mkEnv 2 150) "room" [] proof_ok = None ∧
  exec (mkEnv 2 150) (DecryptStreamKey "room" [] proof_ok) room_open
    = Err AbiDecodeReverted ∧
  outcome (exec (mkEnv 2 150) (DecryptStreamKey "room" [] proof_ok) room_open)
    ≠ claimed_submitDecryption room_open (mkEnv 2 150) "room" [] proof_ok.
Proof.
  split; [apply reachable_step, reachable_init|].
  split; [reflexivity|]. split; [reflexivity | discriminate].
Qed.

(** C2, amended.  For every reachable storage and every non-empty id,
    [decryptStreamKey] fails with NotFound if no record is stored for the
    id; otherwise with AlreadyDecrypted if the flag is set; otherwise with
    WindowClosed if the time is before startTime or after endTime;
    otherwise with ProofInvalid if the signature check rejects; otherwise
    it reverts if the cleartext is not the ABI encoding of a uint32 (fewer
    than 32 bytes, or a first word of 2^32 or more); and it succeeds
    exactly when none of these holds. *)
Theorem submitDecryption_outcome `{F : FHE} (s : State) (env : Env)
    (id : string) (key proof : bytes) :
  reachable s → id ≠ "" →
  outcome (exec env (DecryptStreamKey id key proof) s)
    = amended_submitDecryption s env id key proof.
Proof.
  intros Hs Hne. apply reachable_wf in Hs as Hwf.
  unfold amended_submitDecryption, claimed_submitDecryption.
  unfold exec, transact, body. rewrite decryptStreamKey_eq. simpl.
  destruct (conferences s !! id) as [c|] eqn:Hc.
  - rewrite (lookup_total_correct _ _ _ Hc), (stored_id_ltb _ _ _ Hwf Hne Hc). simpl.
    destruct (isDecrypted c); [done|].
    destruct (Z.leb_spec (startTime c) (block_timestamp env)),
             (Z.ltb_spec (block_timestamp env) (startTime c)); try lia; simpl; [|done].
    destruct (Z.leb_spec (block_timestamp env) (endTime c)),
             (Z.ltb_spec (endTime c) (block_timestamp env)); try lia; simpl; [|done].
    destruct (checkSignatures _ key proof); simpl; [|done].
    by destruct (abi_decode_uint32 key).
  - by rewrite (stored_id_length_None _ _ Hc).
Qed.

Lemma submitDecryption_outcome_witness :
  outcome (exec (mkEnv 2 150) (DecryptStreamKey "room" [] proof_ok) room_open)
    = Some Unspecified.
Proof.
  rewrite (submitDecryption_outcome room_open (mkEnv 2 150) "room" [] proof_ok).
  - reflexivity.
  - apply reachable_step, reachable_init.
  - discriminate.
Defined.

(** ** How one call changes a stored record *)

Section Lifecycle.
Context `{F : FHE}.

(** A stored record stays stored; its [isActive] flag never comes back
    once cleared; its decryption fields change only through a successful
    [decryptStreamKey] on its id, which needs the flag unset. *)
Lemma step_record s env op id c :
  wf s → conferences s !! id = Some c →
  ∃ c', conferences (step s (env, op)) !! id = Some c' ∧
        (isActive c = false → isActive c' = false) ∧
        (decrypts id op = false ∨ isDecrypted c = true →
         isDecrypted c' = isDecrypted c ∧
         decryptedStreamKey c' = decryptedStreamKey c) ∧
        (isActive c = true → isActive c' = false →
         op = EndConference id ∧ exec env op s = Ok (ended id s)).
Proof.
  intros Hwf Hc. unfold step; simpl.
  destruct (exec env op s) as [s'|r] eqn:Hex; simpl;
    [|exists c; repeat split; try done; congruence].
  destruct op as [id' h p t0 t1 | id' key proof | id'].
  - apply exec_create_Ok in Hex as [Hlen (k & _ & _ & _ & _ & _ & _ & ->)].
    unfold created; simpl.
    destruct (decide (id' = id)) as [->|Hne].
    + apply (stored_id_zero _ _ Hwf) in Hlen as [-> | Hnone]; [|congruence].
      destruct (wf_empty _ Hwf _ Hc) as (Ha & Hd & Hk).
      rewrite lookup_insert_eq. eexists; split; [done|]; simpl.
      repeat split; try done; congruence.
    + rewrite lookup_insert_ne by done. exists c. repeat split; try done; congruence.
  - apply exec_decrypt_Ok in Hex as (Hlen & Hd & _ & _ & _ & k & _ & ->).
    unfold decrypted; simpl.
    destruct (decide (id' = id)) as [->|Hne].
    + rewrite (lookup_total_correct _ _ _ Hc) in *.
      rewrite lookup_insert_eq. eexists; split; [done|]; simpl.
      rewrite bool_decide_eq_true_2 by done.
      split; [done|]. split; [intros [?|?]; congruence|].
      intros; congruence.
    + rewrite lookup_insert_ne by done. exists c. repeat split; try done; congruence.
  - apply exec_end_Ok in Hex as (Hlen & _ & _ & ->).
    unfold ended, write_conference; simpl.
    destruct (decide (id' = id)) as [->|Hne].
    + rewrite (lookup_total_correct _ _ _ Hc).
      rewrite lookup_insert_eq. eexists; split; [done|]; simpl.
      repeat split; done.
    + rewrite lookup_insert_ne by done. exists c. repeat split; try done; congruence.
Qed.

(** Once decrypted, decrypted for ever with the same cleartext. *)
Lemma run_keeps_decryption calls s id c :
  wf s → conferences s !! id = Some c → isDecrypted c = true →
  ∃ c', conferences (run calls s) !! id = Some c' ∧
        isDecrypted c' = true ∧
        decryptedStreamKey c' = decryptedStreamKey c.
Proof.
  revert s c. induction calls as [|[env op] cs IH]; intros s c Hwf Hc Hd; simpl.
  - by exists c.
  - destruct (step_record s env op id c Hwf Hc) as (c1 & Hc1 & _ & Hkeep & _).
    destruct Hkeep as [Hd1 Hk1]; [by right|].
    destruct (IH (step s (env, op)) c1) as (c' & Hc' & Hd' & Hk');
      [by apply wf_step | done | congruence |].
    exists c'. repeat split; [done | done | congruence].
Qed.

Lemma decrypt_decrypted_fails env id key proof c s :
  wf s → conferences s !! id = Some c → isDecrypted c = true →
  exec env (DecryptStreamKey id key proof) s = Err StreamKeyAlreadyDecrypted.
Proof.
  intros Hwf Hc Hd.
  assert (id ≠ "") as Hne.
  { intros ->. destruct (wf_empty _ Hwf _ Hc) as (_ & ? & _). congruence. }
  unfold exec, transact, body. rewrite decryptStreamKey_eq. simpl.
  by rewrite (lookup_total_correct _ _ _ Hc), (stored_id_ltb _ _ _ Hwf Hne Hc), Hd.
Qed.

(** *** The [isActive] flag along a run *)

Lemma active_flag_step s env op id :
  wf s → active_flag id s = Some false →
  active_flag id (step s (env, op)) = Some false.
Proof.
  unfold active_flag. intros Hwf Hf.
  destruct (conferences s !! id) as [c|] eqn:Hc; [|done].
  injection Hf as Hf.
  destruct (step_record s env op id c Hwf Hc) as (c' & -> & Hkeep & _).
  simpl. by rewrite Hkeep.
Qed.

Lemma never_rises calls s id : wf s → count_steps (rises id) calls s = 0%nat.
Proof.
  revert s. induction calls as [|[env op] cs IH]; intros s Hwf; simpl; [done|].
  rewrite IH by by apply wf_step.
  unfold rises. case_bool_decide as H; [|done].
  destruct H as [H0 H1]. rewrite (active_flag_step _ _ _ _ Hwf H0) in H1. done.
Qed.

Lemma no_fall_when_inactive calls s id :
  wf s → active_flag id s = Some false → count_steps (falls id) calls s = 0%nat.
Proof.
  revert s. induction calls as [|[env op] cs IH]; intros s Hwf Hf; simpl; [done|].
  rewrite IH; [|by apply wf_step | by apply active_flag_step].
  unfold falls. case_bool_decide as H; [|done].
  destruct H as [H0 _]. congruence.
Qed.

Lemma falls_at_most_once calls s id :
  wf s → (count_steps (falls id) calls s ≤ 1)%nat.
Proof.
  revert s. induction calls as [|[env op] cs IH]; intros s Hwf; simpl; [lia|].
  unfold falls at 1. case_bool_decide as H.
  - destruct H as [_ H1].
    rewrite no_fall_when_inactive; [lia | by apply wf_step | done].
  - simpl. by apply IH, wf_step.
Qed.

Lemma fall_is_end s env op id :
  wf s → falls id s (step s (env, op)) = true →
  op = EndConference id ∧ exec env op s = Ok (ended id s).
Proof.
  intros Hwf. unfold falls, active_flag. rewrite bool_decide_eq_true.
  intros [H0 H1].
  destruct (conferences s !! id) as [c|] eqn:Hc; [|done].
  injection H0 as H0.
  destruct (step_record s env op id c Hwf Hc) as (c' & Hc' & _ & _ & Hend).
  rewrite Hc' in H1. injection H1 as H1. by apply Hend.
Qed.

(** *** The id list along a run *)

Lemma conferenceIds_step s c :
  conferenceIds (step s c) = conferenceIds s ++ created_ids [c] s.
Proof.
  destruct c as [env op]. unfold step; simpl.
  destruct (exec env op s) as [s'|r] eqn:Hex; simpl.
  - destruct op as [id h p t0 t1 | id key proof | id]; simpl.
    + by apply exec_create_Ok in Hex as [_ (k & _ & _ & _ & _ & _ & _ & ->)].
    + apply exec_decrypt_Ok in Hex as (_ & _ & _ & _ & _ & k & _ & ->).
      simpl. by rewrite app_nil_r.
    + apply exec_end_Ok in Hex as (_ & _ & _ & ->). simpl. by rewrite app_nil_r.
  - destruct op; simpl; by rewrite app_nil_r.
Qed.

Lemma conferenceIds_run calls s :
  conferenceIds (run calls s) = conferenceIds s ++ created_ids calls s.
Proof.
  revert s. induction calls as [|c cs IH]; intros s; simpl.
  - by rewrite app_nil_r.
  - rewrite IH, conferenceIds_step. simpl. by rewrite app_nil_r, <- app_assoc.
Qed.

End Lifecycle.

(** ** The lifecycle claims *)

(** C3.  The pair decryptedStreamKey/isDecrypted is set exactly once.  A
    successful [decryptStreamKey] finds the flag unset, sets it and stores
    the decoded cleartext; after any further calls the record still holds
    that cleartext with the flag set, and every [decryptStreamKey] on the
    id reverts with "Stream key already decrypted" (so leaves the storage
    as it is); and a call other than [decryptStreamKey] on the id never
    changes the pair of a stored record. *)
Theorem decryption_set_once `{F : FHE} (s : State) :
  reachable s →
  (∀ env id key proof s1,
     exec env (DecryptStreamKey id key proof) s = Ok s1 →
     ∃ k c1,
       abi_decode_uint32 key = Some k ∧
       isDecrypted (conferences s !!! id) = false ∧
       conferences s1 !! id = Some c1 ∧
       isDecrypted c1 = true ∧ decryptedStreamKey c1 = k ∧
       ∀ calls,
         (∃ c2, conferences (run calls s1) !! id = Some c2 ∧
                isDecrypted c2 = true ∧ decryptedStreamKey c2 = k) ∧
         ∀ env' key' proof',
           exec env' (DecryptStreamKey id key' proof') (run calls s1)
             = Err StreamKeyAlreadyDecrypted ∧
           step (run calls s1) (env', DecryptStreamKey id key' proof')
             = run calls s1) ∧
  (∀ env op id c,
     conferences s !! id = Some c → decrypts id op = false →
     ∃ c', conferences (step s (env, op)) !! id = Some c' ∧
           isDecrypted c' = isDecrypted c ∧
           decryptedStreamKey c' = decryptedStreamKey c).
Proof.
  intros Hs. apply reachable_wf in Hs as Hwf. split.
  - intros env id key proof s1 Hex.
    assert (wf s1) as Hwf1 by by eapply wf_exec.
    apply exec_decrypt_Ok in Hex as (Hlen & Hd & _ & _ & _ & k & Hk & ->).
    eexists k, _. split; [done|]. split; [done|].
    split; [apply lookup_insert_eq|]. split; [done|]. split; [done|].
    intros calls.
    destruct (run_keeps_decryption calls (decrypted id k s) id _ Hwf1
                (lookup_insert_eq _ _ _) eq_refl) as (c2 & Hc2 & Hd2 & Hk2).
    split; [by exists c2|].
    intros env' key' proof'.
    assert (exec env' (DecryptStreamKey id key' proof') (run calls (decrypted id k s))
              = Err StreamKeyAlreadyDecrypted) as Hfail
      by (eapply decrypt_decrypted_fails; [by apply wf_run | done | done]).
    split; [done|]. unfold step; simpl. by rewrite Hfail.
  - intros env op id c Hc Hop.
    destruct (step_record s env op id c Hwf Hc) as (c' & Hc' & _ & Hkeep & _).
    exists c'. split; [done|]. apply Hkeep. by left.
Qed.

Lemma decryption_set_once_witness :
  ∃ s1, exec (mkEnv 2 150)
          (DecryptStreamKey "room" (abi_encode_uint32 Byte.x00 Byte.x00 Byte.x01 Byte.x02)
             proof_ok) room_open = Ok s1 ∧
        decryptedStreamKey <$> conferences s1 !! "room" = Some 258 ∧
        exec (mkEnv 3 160) (DecryptStreamKey "room" [] proof_ok)
          (run [(mkEnv 1 300, EndConference "room")] s1)
          = Err StreamKeyAlreadyDecrypted.
Proof.
  eexists. split; [reflexivity|].
  destruct (decryption_set_once room_open
              (reachable_step init (mkEnv 1 50)
                 (CreateConference "room" 7 proof_ok 100 200) reachable_init))
    as [Hset _].
  destruct (Hset (mkEnv 2 150) "room"
              (abi_encode_uint32 Byte.x00 Byte.x00 Byte.x01 Byte.x02) proof_ok _ eq_refl)
    as (k & c1 & Hk & _ & Hc1 & _ & Hk1 & Hlater).
  split.
  - rewrite Hc1. simpl. rewrite Hk1. vm_compute in Hk. congruence.
  - exact (proj1 (proj2 (Hlater [(mkEnv 1 300, EndConference "room")])
                    (mkEnv 3 160) [] proof_ok)).
Defined.

(** C6.  The isActive flag of a stored record never goes from false to
    true, whatever calls are made, and goes from true to false at most once;
    the call at which it does is a successful [endConference] on that id. *)
Theorem isActive_falls_once `{F : FHE} (s : State) (id : string)
    (calls : list (Env * Op)) :
  reachable s →
  count_steps (rises id) calls s = 0%nat ∧
  (count_steps (falls id) calls s ≤ 1)%nat ∧
  (∀ c, conferences s !! id = Some c → isActive c = false →
        active_flag id (run calls s) = Some false) ∧
  (∀ env op, falls id s (step s (env, op)) = true →
             op = EndConference id ∧ exec env op s = Ok (ended id s)).
Proof.
  intros Hs. apply reachable_wf in Hs as Hwf.
  split; [by apply never_rises|]. split; [by apply falls_at_most_once|]. split.
  - intros c Hc Ha.
    assert (active_flag id s = Some false) as Hf
      by (unfold active_flag; by rewrite Hc, <- Ha).
    clear c Hc Ha Hs. revert s Hwf Hf.
    induction calls as [|[env op] cs IH]; intros s Hwf Hf; simpl; [done|].
    apply IH; [by apply wf_step | by apply active_flag_step].
  - intros env op. by apply fall_is_end.
Qed.

Lemma isActive_falls_once_witness :
  count_steps (falls "room")
    [(mkEnv 1 300, EndConference "room"); (mkEnv 1 310, EndConference "room")]
    room_open = 1%nat ∧
  count_steps (rises "room")
    [(mkEnv 1 300, EndConference "room"); (mkEnv 1 310, EndConference "room")]
    room_open = 0%nat.
Proof.
  split; [reflexivity|].
  exact (proj1 (isActive_falls_once room_open "room"
                  [(mkEnv 1 300, EndConference "room"); (mkEnv 1 310, EndConference "room")]
                  (reachable_step init (mkEnv 1 50)
                     (CreateConference "room" 7 proof_ok 100 200) reachable_init))).
Defined.

(** C8.  [getAllConferenceIds] returns the ids of the [createConference]
    calls that succeeded, in the order of the calls; these are exactly the
    ids that have a stored record; a call other than [createConference]
    leaves the list as it is, and no call removes or reorders what the list
    already holds. *)
Theorem listIds_creation_order `{F : FHE} (calls : list (Env * Op)) :
  getAllConferenceIds (run calls init) = created_ids calls init ∧
  (∀ id, id ∈ getAllConferenceIds (run calls init) ↔
         is_Some (conferences (run calls init) !! id)) ∧
  (∀ s env op, is_create op = false →
               getAllConferenceIds (step s (env, op)) = getAllConferenceIds s) ∧
  (∀ s more, getAllConferenceIds s `prefix_of` getAllConferenceIds (run more s)).
Proof.
  unfold getAllConferenceIds. split; [|split; [|split]].
  - by rewrite conferenceIds_run.
  - intros id. apply wf_ids, wf_run, wf_init.
  - intros s env op Hop. rewrite conferenceIds_step. simpl.
    destruct op; [done | |]; simpl; by rewrite !app_nil_r.
  - intros s more. rewrite conferenceIds_run. by eexists.
Qed.

Lemma listIds_creation_order_witness :
  getAllConferenceIds
    (run [create_room "b"; create_room "a"; (mkEnv 1 300, EndConference "b");
          create_room "b"] init) = ["b"; "a"].
Proof.
  rewrite (proj1 (listIds_creation_order
                    [create_room "b"; create_room "a";
                     (mkEnv 1 300, EndConference "b"); create_room "b"])).
  reflexivity.
Defined.

(** ** The second invariant: windows, keys and the event log *)

Section Soundness.
Context `{F : FHE}.

Lemma created_event_ids_app evs evs' :
  created_event_ids (evs ++ evs') = created_event_ids evs ++ created_event_ids evs'.
Proof. apply flat_map_app. Qed.

Lemma decrypted_events_app evs evs' :
  decrypted_events (evs ++ evs') = decrypted_events evs ++ decrypted_events evs'.
Proof. apply flat_map_app. Qed.

Lemma sound_init : sound init.
Proof.
  split; simpl; try by (intros ? ?; rewrite lookup_empty).
  - done.
  - intros id k. rewrite elem_of_nil. split; [done|].
    intros (c & Hc & _). by rewrite lookup_empty in Hc.
  - apply NoDup_nil_2.
  - apply NoDup_nil_2.
Qed.

Lemma created_sound env id k t0 t1 s :
  wf s → sound s → stored_id_length id s = 0%nat → t0 < t1 →
  sound (created env id k t0 t1 s).
Proof.
  intros Hwf Hs Hlen Hlt.
  apply (stored_id_zero _ _ Hwf) in Hlen.
  split; simpl.
  - intros id' c. rewrite lookup_insert_Some.
    intros [[_ <-] | [_ H]]; [done | by eapply sound_window].
  - intros id' c. rewrite lookup_insert_Some.
    intros [[_ <-] | [_ H]]; [simpl; split; [lia | done] | by eapply sound_key].
  - rewrite created_event_ids_app, (sound_created _ Hs). done.
  - intros id' k'. rewrite decrypted_events_app. simpl. rewrite app_nil_r.
    rewrite (sound_decrypted _ Hs).
    destruct (decide (id = id')) as [<-|Hne].
    + rewrite lookup_insert_eq. split.
      * intros (c & Hc & Hd & _). exfalso.
        destruct Hlen as [-> | Hnone]; [|congruence].
        destruct (wf_empty _ Hwf _ Hc) as (_ & ? & _). congruence.
      * intros (c & [= <-] & Hd & _). done.
    + by rewrite lookup_insert_ne.
  - rewrite decrypted_events_app. simpl. rewrite app_nil_r. apply (sound_decrypted_once _ Hs).
  - rewrite filter_app. apply NoDup_app. split; [apply (sound_ids_once _ Hs)|].
    split.
    + intros x Hx Hx'. apply list_elem_of_filter in Hx as [_ Hx], Hx' as [Hne Hx'].
      apply list_elem_of_singleton in Hx' as ->.
      apply (wf_ids _ Hwf) in Hx as [c Hc].
      destruct Hlen as [-> | Hnone]; [done | congruence].
    + rewrite filter_cons, filter_nil. case_decide; [apply NoDup_singleton | apply NoDup_nil_2].
Qed.

Lemma decrypted_sound id k key s :
  wf s → sound s → (0 < stored_id_length id s)%nat →
  isDecrypted (conferences s !!! id) = false → abi_decode_uint32 key = Some k →
  sound (decrypted id k s).
Proof.
  intros Hwf Hs Hlen Hd Hk.
  apply (stored_id_positive _ _ Hwf) in Hlen as [Hne [c Hc]].
  rewrite (lookup_total_correct _ _ _ Hc) in Hd.
  unfold decrypted. rewrite (lookup_total_correct _ _ _ Hc).
  assert (∀ k0, (id, k0) ∉ decrypted_events (events s)) as Hfresh.
  { intros k0 Hin. apply (sound_decrypted _ Hs) in Hin as (c0 & Hc0 & Hd0 & _).
    congruence. }
  split; simpl.
  - intros id' c'. rewrite lookup_insert_Some.
    intros [[_ <-] | [_ H]]; [simpl; by eapply sound_window | by eapply sound_window].
  - intros id' c'. rewrite lookup_insert_Some.
    intros [[_ <-] | [_ H]]; [simpl | by eapply sound_key].
    split; [by eapply abi_decode_uint32_range | done].
  - rewrite created_event_ids_app. simpl. rewrite app_nil_r. apply (sound_created _ Hs).
  - intros id' k'. rewrite decrypted_events_app, elem_of_app. simpl.
    rewrite list_elem_of_singleton, (sound_decrypted _ Hs).
    destruct (decide (id = id')) as [<-|Hne'].
    + rewrite lookup_insert_eq. split.
      * intros [(c0 & Hc0 & Hd0 & _) | [= ->]]; [congruence|].
        eexists; split; [done|]. done.
      * intros (c0 & [= <-] & _ & Hk0). simpl in Hk0. right. congruence.
    + rewrite lookup_insert_ne by done. split.
      * intros [? | [= ? _]]; [done | congruence].
      * by left.
  - rewrite decrypted_events_app, fmap_app. simpl. apply NoDup_app.
    split; [apply (sound_decrypted_once _ Hs)|]. split; [|apply NoDup_singleton].
    intros x Hx Hx'. apply list_elem_of_singleton in Hx' as ->.
    apply list_elem_of_fmap in Hx as ([id0 k0] & -> & Hin). by apply (Hfresh k0).
  - apply (sound_ids_once _ Hs).
Qed.

Lemma ended_sound id s :
  wf s → sound s → (0 < stored_id_length id s)%nat → sound (ended id s).
Proof.
  intros Hwf Hs Hlen.
  apply (stored_id_positive _ _ Hwf) in Hlen as [Hne [c Hc]].
  unfold ended, write_conference. rewrite (lookup_total_correct _ _ _ Hc).
  split; simpl.
  - intros id' c'. rewrite lookup_insert_Some.
    intros [[_ <-] | [_ H]]; [simpl; by eapply sound_window | by eapply sound_window].
  - intros id' c'. rewrite lookup_insert_Some.
    intros [[_ <-] | [_ H]]; [simpl; by eapply sound_key | by eapply sound_key].
  - apply (sound_created _ Hs).
  - intros id' k'. rewrite (sound_decrypted _ Hs).
    destruct (decide (id = id')) as [<-|Hne'].
    + rewrite lookup_insert_eq. split.
      * intros (c0 & Hc0 & Hd0 & Hk0). assert (c0 = c) as -> by congruence.
        by eexists.
      * intros (c0 & [= <-] & Hd0 & Hk0). by exists c.
    + by rewrite lookup_insert_ne.
  - apply (sound_decrypted_once _ Hs).
  - apply (sound_ids_once _ Hs).
Qed.

Lemma sound_exec env op s s' : wf s → sound s → exec env op s = Ok s' → sound s'.
Proof.
  intros Hwf Hs. destruct op as [id h p t0 t1 | id key proof | id].
  - rewrite exec_create_Ok. intros [Hlen (k & _ & _ & Hlt & _ & _ & _ & ->)].
    by apply created_sound.
  - rewrite exec_decrypt_Ok. intros (Hlen & Hd & _ & _ & _ & k & Hk & ->).
    by eapply decrypted_sound.
  - rewrite exec_end_Ok. intros (Hlen & _ & _ & ->).
    by apply ended_sound.
Qed.

Lemma sound_step s c : wf s → sound s → sound (step s c).
Proof.
  intros Hwf Hs. unfold step.
  destruct (exec c.1 c.2 s) as [s'|r] eqn:H; simpl; [|done].
  by eapply sound_exec.
Qed.

Lemma reachable_sound s : reachable s → sound s.
Proof.
  induction 1 as [|s env op Hr IH]; [apply sound_init|].
  apply sound_step; [by apply reachable_wf | done].
Qed.

End Soundness.

(** ** Fields that stay, and records that are not touched *)

Section Identity.
Context `{F : FHE}.

Lemma same_identity_refl c : same_identity c c.
Proof. by repeat split. Qed.

Lemma same_identity_trans c1 c2 c3 :
  same_identity c1 c2 → same_identity c2 c3 → same_identity c1 c3.
Proof.
  unfold same_identity. intros (? & ? & ? & ? & ?) (? & ? & ? & ? & ?).
  repeat split; congruence.
Qed.

Lemma step_other s env op id :
  target op ≠ id → conferences (step s (env, op)) !! id = conferences s !! id.
Proof.
  intros Hne. unfold step; simpl.
  destruct (exec env op s) as [s'|r] eqn:Hex; simpl; [|done].
  destruct op as [id' h p t0 t1 | id' key proof | id']; simpl in Hne.
  - apply exec_create_Ok in Hex as [_ (k & _ & _ & _ & _ & _ & _ & ->)].
    simpl. by rewrite lookup_insert_ne.
  - apply exec_decrypt_Ok in Hex as (_ & _ & _ & _ & _ & k & _ & ->).
    simpl. by rewrite lookup_insert_ne.
  - apply exec_end_Ok in Hex as (_ & _ & _ & ->).
    simpl. by rewrite lookup_insert_ne.
Qed.

Lemma step_identity s env op id c :
  wf s → id ≠ "" → conferences s !! id = Some c →
  ∃ c', conferences (step s (env, op)) !! id = Some c' ∧ same_identity c c'.
Proof.
  intros Hwf Hne Hc.
  destruct (decide (target op = id)) as [Ht|Ht];
    [|exists c; split; [by rewrite step_other | apply same_identity_refl]].
  unfold step; simpl.
  destruct (exec env op s) as [s'|r] eqn:Hex; simpl;
    [|exists c; split; [done | apply same_identity_refl]].
  destruct op as [id' h p t0 t1 | id' key proof | id']; simpl in Ht; subst id'.
  - apply exec_create_Ok in Hex as [Hlen _].
    apply (stored_id_zero _ _ Hwf) in Hlen as [? | ?]; congruence.
  - apply exec_decrypt_Ok in Hex as (_ & _ & _ & _ & _ & k & _ & ->).
    unfold decrypted; simpl. rewrite (lookup_total_correct _ _ _ Hc), lookup_insert_eq.
    eexists; split; [done|]. by repeat split.
  - apply exec_end_Ok in Hex as (_ & _ & _ & ->).
    unfold ended, write_conference; simpl.
    rewrite (lookup_total_correct _ _ _ Hc), lookup_insert_eq.
    eexists; split; [done|]. by repeat split.
Qed.

Lemma run_identity calls s id c :
  wf s → id ≠ "" → conferences s !! id = Some c →
  ∃ c', conferences (run calls s) !! id = Some c' ∧ same_identity c c'.
Proof.
  revert s c. induction calls as [|[env op] cs IH]; intros s c Hwf Hne Hc; simpl.
  - exists c. split; [done | apply same_identity_refl].
  - destruct (step_identity s env op id c Hwf Hne Hc) as (c1 & Hc1 & H1).
    destruct (IH (step s (env, op)) c1) as (c' & Hc' & H'); [by apply wf_step | done | done |].
    exists c'. split; [done | by eapply same_identity_trans].
Qed.

(** The three guarded reads look at one slot only. *)
Lemma reads_of_slot id s s' :
  conferences s' !! id = conferences s !! id →
  getConferenceDetails id s' = getConferenceDetails id s ∧
  getEncryptedStreamKey id s' = getEncryptedStreamKey id s ∧
  isConferenceActive id s' = isConferenceActive id s.
Proof.
  intros H.
  rewrite !getConferenceDetails_eq, !getEncryptedStreamKey_eq, !isConferenceActive_eq.
  unfold stored_id_length. by rewrite !lookup_total_alt, H.
Qed.

Lemma created_lookup env id k t0 t1 s :
  conferences (created env id k t0 t1 s) !! id =
  Some {| conferenceId := id; encryptedStreamKey := k; creator := msg_sender env;
          startTime := t0; endTime := t1; isActive := true;
          decryptedStreamKey := 0; isDecrypted := false |}.
Proof. apply lookup_insert_eq. Qed.

End Identity.

(** ** Further properties of the contract *)

(** X1.  In every reachable storage, [createConference] on a non-empty id
    reverts with "Conference already exists" exactly when a record is
    stored for that id. *)
Theorem create_rejects_exactly_stored `{F : FHE} (s : State) (env : Env) (id : string)
    (h : Z) (p : list Byte.byte) (t0 t1 : Z) :
  reachable s → id ≠ "" →
  exec env (CreateConference id h p t0 t1) s = Err ConferenceAlreadyExists
  ↔ is_Some (conferences s !! id).
Proof.
  intros Hs Hne. apply reachable_wf in Hs as Hwf.
  pose proof (stored_id_positive id s Hwf) as Hpos.
  unfold exec, transact, body. rewrite createConference_eq.
  destruct (Nat.eqb_spec (stored_id_length id s) 0) as [Hz|Hnz]; simpl.
  - split.
    + destruct (fromExternal h p) as [k|]; [|done].
      repeat (destruct (negb _); [done|]). done.
    + intros Hsome. assert (0 < stored_id_length id s)%nat by by apply Hpos. lia.
  - split; [intros _|done]. apply Hpos. lia.
Qed.

Lemma create_rejects_exactly_stored_witness :
  exec (mkEnv 2 60) (CreateConference "room" 9 proof_ok 300 400) room_open
    = Err ConferenceAlreadyExists.
Proof.
  apply (create_rejects_exactly_stored room_open (mkEnv 2 60) "room" 9 proof_ok 300 400).
  - apply reachable_step, reachable_init.
  - discriminate.
  - by eexists.
Defined.

(** X2.  A successful [createConference] on a non-empty id is read back by
    every read: the details are (caller, startTime, endTime, true, false,
    0), the stream key is the handle the library returned, the conference
    is active, and the id is the new last entry of the id list. *)
Theorem create_round_trip `{F : FHE} (s s' : State) (env : Env) (id : string)
    (h : Z) (p : list Byte.byte) (t0 t1 : Z) :
  id ≠ "" →
  exec env (CreateConference id h p t0 t1) s = Ok s' →
  ∃ k, fromExternal h p = Some k ∧
       getConferenceDetails id s' = Ok (msg_sender env, t0, t1, true, false, 0) ∧
       getEncryptedStreamKey id s' = Ok k ∧
       isConferenceActive id s' = Ok true ∧
       getAllConferenceIds s' = getAllConferenceIds s ++ [id].
Proof.
  intros Hne. rewrite exec_create_Ok.
  intros [_ (k & Hk & _ & _ & _ & _ & _ & ->)]. exists k. split; [done|].
  rewrite getConferenceDetails_eq, getEncryptedStreamKey_eq, isConferenceActive_eq.
  unfold stored_id_length.
  rewrite (lookup_total_correct _ _ _ (created_lookup env id k t0 t1 s)). simpl.
  by destruct id.
Qed.

Lemma create_round_trip_witness :
  getConferenceDetails "room" room_open = Ok (1, 100, 200, true, false, 0) ∧
  getEncryptedStreamKey "room" room_open = Ok 7.
Proof.
  destruct (create_round_trip init room_open (mkEnv 1 50) "room" 7 proof_ok 100 200)
    as (k & Hk & Hget & Hkey & _); [discriminate | reflexivity |].
  split; [exact Hget|]. rewrite Hkey. vm_compute in Hk. congruence.
Defined.

(** X3.  A call about one id leaves the record of every other id, and so
    what the three guarded reads return for it, as they were. *)
Theorem call_leaves_other_ids `{F : FHE} (s : State) (env : Env) (op : Op) (id : string) :
  target op ≠ id →
  conferences (step s (env, op)) !! id = conferences s !! id ∧
  getConferenceDetails id (step s (env, op)) = getConferenceDetails id s ∧
  getEncryptedStreamKey id (step s (env, op)) = getEncryptedStreamKey id s ∧
  isConferenceActive id (step s (env, op)) = isConferenceActive id s.
Proof.
  intros Hne. split; [by apply step_other|].
  apply reads_of_slot. by apply step_other.
Qed.

Lemma call_leaves_other_ids_witness :
  getConferenceDetails "room" (step room_open (create_room "lobby"))
    = getConferenceDetails "room" room_open.
Proof.
  apply (call_leaves_other_ids room_open (create_room "lobby").1 (create_room "lobby").2
           "room").
  discriminate.
Defined.

(** X4.  The conferenceId, encryptedStreamKey, creator, startTime and
    endTime of a stored record with a non-empty id never change, and the
    record is never removed, whatever calls follow. *)
Theorem identity_fields_fixed `{F : FHE} (s : State) (id : string) (c : Conference)
    (calls : list (Env * Op)) :
  reachable s → id ≠ "" → conferences s !! id = Some c →
  ∃ c', conferences (run calls s) !! id = Some c' ∧ same_identity c c'.
Proof. intros Hs. apply run_identity. by apply reachable_wf. Qed.

Lemma identity_fields_fixed_witness :
  creator <$> conferences
    (run [(mkEnv 2 150, DecryptStreamKey "room"
             (abi_encode_uint32 Byte.x00 Byte.x00 Byte.x01 Byte.x02) proof_ok);
          (mkEnv 1 300, EndConference "room");
          (mkEnv 2 310, CreateConference "room" 9 proof_ok 400 500)] room_open) !! "room"
    = Some 1.
Proof.
  destruct (identity_fields_fixed room_open "room"
              {| conferenceId := "room"; encryptedStreamKey := 7; creator := 1;
                 startTime := 100; endTime := 200; isActive := true;
                 decryptedStreamKey := 0; isDecrypted := false |}
              [(mkEnv 2 150, DecryptStreamKey "room"
                  (abi_encode_uint32 Byte.x00 Byte.x00 Byte.x01 Byte.x02) proof_ok);
               (mkEnv 1 300, EndConference "room");
               (mkEnv 2 310, CreateConference "room" 9 proof_ok 400 500)])
    as (c' & Hc' & _ & _ & Hcr & _).
  - apply reachable_step, reachable_init.
  - discriminate.
  - reflexivity.
  - rewrite Hc'. simpl. by rewrite Hcr.
Defined.

(** X5.  Every stored record has startTime < endTime. *)
Theorem stored_window_ordered `{F : FHE} (s : State) (id : string) (c : Conference) :
  reachable s → conferences s !! id = Some c → startTime c < endTime c.
Proof. intros Hs. apply sound_window. by apply reachable_sound. Qed.

Lemma stored_window_ordered_witness : 100 < 200.
Proof.
  exact (stored_window_ordered room_open "room"
           {| conferenceId := "room"; encryptedStreamKey := 7; creator := 1;
              startTime := 100; endTime := 200; isActive := true;
              decryptedStreamKey := 0; isDecrypted := false |}
           (reachable_step init (mkEnv 1 50)
              (CreateConference "room" 7 proof_ok 100 200) reachable_init)
           eq_refl).
Defined.

(** X6.  The decryptedStreamKey of every stored record is a 32-bit value,
    and it is 0 as long as isDecrypted is false. *)
Theorem stored_key_is_uint32 `{F : FHE} (s : State) (id : string) (c : Conference) :
  reachable s → conferences s !! id = Some c →
  0 ≤ decryptedStreamKey c < 2 ^ 32 ∧
  (isDecrypted c = false → decryptedStreamKey c = 0).
Proof. intros Hs. apply sound_key. by apply reachable_sound. Qed.

Lemma stored_key_is_uint32_witness : 0 ≤ 0 < 2 ^ 32.
Proof.
  exact (proj1 (stored_key_is_uint32 room_open "room"
           {| conferenceId := "room"; encryptedStreamKey := 7; creator := 1;
              startTime := 100; endTime := 200; isActive := true;
              decryptedStreamKey := 0; isDecrypted := false |}
           (reachable_step init (mkEnv 1 50)
              (CreateConference "room" 7 proof_ok 100 200) reachable_init)
           eq_refl)).
Defined.

(** X7.  A successful [endConference] changes the isActive flag of its
    record and nothing else: the details read back with isActive = false
    and every other field as before, the stream key, the id list and the
    event log are as before. *)
Theorem end_round_trip `{F : FHE} (s s' : State) (env : Env) (id : string) :
  exec env (EndConference id) s = Ok s' →
  ∃ c, conferences s !! id = Some c ∧
       getConferenceDetails id s' =
         Ok (creator c, startTime c, endTime c, false,
             isDecrypted c, decryptedStreamKey c) ∧
       getEncryptedStreamKey id s' = Ok (encryptedStreamKey c) ∧
       isConferenceActive id s' = Ok false ∧
       getAllConferenceIds s' = getAllConferenceIds s ∧
       events s' = events s.
Proof.
  rewrite exec_end_Ok. intros (Hlen & _ & _ & ->).
  destruct (conferences s !! id) as [c|] eqn:Hc;
    [|rewrite (stored_id_length_None _ _ Hc) in Hlen; lia].
  exists c. split; [done|].
  rewrite getConferenceDetails_eq, getEncryptedStreamKey_eq, isConferenceActive_eq.
  unfold stored_id_length in *. unfold ended, write_conference. simpl.
  rewrite lookup_total_insert_eq. rewrite (lookup_total_correct _ _ _ Hc) in *. simpl.
  by destruct (Nat.ltb_spec 0 (String.length (conferenceId c))); [|lia].
Qed.

Lemma end_round_trip_witness :
  getConferenceDetails "room" (step room_open (mkEnv 1 300, EndConference "room"))
    = Ok (1, 100, 200, false, false, 0).
Proof.
  destruct (end_round_trip room_open (step room_open (mkEnv 1 300, EndConference "room"))
              (mkEnv 1 300) "room" eq_refl) as (c & Hc & Hget & _).
  rewrite Hget. vm_compute in Hc. injection Hc as <-. reflexivity.
Defined.

(** X8.  [endConference] can be repeated: after a successful call, a later
    call by the same account at the same or a later time succeeds again and
    leaves the storage exactly as it is. *)
Theorem end_twice_no_change `{F : FHE} (s s' : State) (env env' : Env) (id : string) :
  exec env (EndConference id) s = Ok s' →
  msg_sender env' = msg_sender env →
  block_timestamp env ≤ block_timestamp env' →
  exec env' (EndConference id) s' = Ok s'.
Proof.
  rewrite !exec_end_Ok. intros (Hlen & Hcr & Ht & ->) Hsame Hlater.
  unfold stored_id_length, ended, write_conference in *. simpl.
  rewrite lookup_total_insert_eq. simpl.
  repeat split; [done | congruence | lia |].
  by rewrite insert_insert_eq.
Qed.

Lemma end_twice_no_change_witness :
  exec (mkEnv 1 310) (EndConference "room")
    (step room_open (mkEnv 1 300, EndConference "room"))
  = Ok (step room_open (mkEnv 1 300, EndConference "room")).
Proof.
  apply (end_twice_no_change room_open _ (mkEnv 1 300) (mkEnv 1 310) "room").
  - reflexivity.
  - reflexivity.
  - simpl. lia.
Defined.

(** X9.  A successful [decryptStreamKey] is read back: the details show
    isDecrypted = true and the decoded key, every other field as before;
    the stream key and the id list are as before and exactly one
    [StreamKeyDecrypted] event, carrying the id and the key, is appended. *)
Theorem decrypt_round_trip `{F : FHE} (s s' : State) (env : Env) (id : string)
    (key proof : list Byte.byte) :
  exec env (DecryptStreamKey id key proof) s = Ok s' →
  ∃ c k, conferences s !! id = Some c ∧ abi_decode_uint32 key = Some k ∧
         getConferenceDetails id s' =
           Ok (creator c, startTime c, endTime c, isActive c, true, k) ∧
         getEncryptedStreamKey id s' = Ok (encryptedStreamKey c) ∧
         getAllConferenceIds s' = getAllConferenceIds s ∧
         events s' = events s ++ [StreamKeyDecrypted id k].
Proof.
  rewrite exec_decrypt_Ok. intros (Hlen & _ & _ & _ & _ & k & Hk & ->).
  destruct (conferences s !! id) as [c|] eqn:Hc;
    [|rewrite (stored_id_length_None _ _ Hc) in Hlen; lia].
  exists c, k. split; [done|]. split; [done|].
  rewrite getConferenceDetails_eq, getEncryptedStreamKey_eq.
  unfold stored_id_length in *. unfold decrypted. simpl.
  rewrite lookup_total_insert_eq. rewrite (lookup_total_correct _ _ _ Hc) in *. simpl.
  by destruct (Nat.ltb_spec 0 (String.length (conferenceId c))); [|lia].
Qed.

Lemma decrypt_round_trip_witness :
  getConferenceDetails "room"
    (step room_open
       (mkEnv 2 150, DecryptStreamKey "room"
          (abi_encode_uint32 Byte.x00 Byte.x00 Byte.x01 Byte.x02) proof_ok))
  = Ok (1, 100, 200, true, true, 258).
Proof.
  destruct (decrypt_round_trip room_open
              (step room_open
                 (mkEnv 2 150, DecryptStreamKey "room"
                    (abi_encode_uint32 Byte.x00 Byte.x00 Byte.x01 Byte.x02) proof_ok))
              (mkEnv 2 150) "room"
              (abi_encode_uint32 Byte.x00 Byte.x00 Byte.x01 Byte.x02) proof_ok)
    as (c & k & Hc & Hk & Hget & _); [vm_compute; reflexivity|].
  rewrite Hget. vm_compute in Hc, Hk. injection Hc as <-. injection Hk as <-.
  reflexivity.
Defined.

(** X10.  Whatever calls follow the creation of a non-empty id, a
    [decryptStreamKey] on it succeeds only inside the window given at
    creation and only with a claim the signature check accepts for the
    handle stored at creation. *)
Theorem decrypt_checks_created_handle `{F : FHE} (s s1 s2 : State) (env env' : Env)
    (id : string) (h : Z) (p key proof : list Byte.byte) (t0 t1 : Z)
    (calls : list (Env * Op)) :
  reachable s → id ≠ "" →
  exec env (CreateConference id h p t0 t1) s = Ok s1 →
  exec env' (DecryptStreamKey id key proof) (run calls s1) = Ok s2 →
  ∃ k, fromExternal h p = Some k ∧
       checkSignatures [toBytes32 k] key proof = true ∧
       t0 ≤ block_timestamp env' ≤ t1.
Proof.
  intros Hs Hne Hcreate Hdec. apply reachable_wf in Hs as Hwf.
  assert (wf s1) as Hwf1 by by eapply wf_exec.
  apply exec_create_Ok in Hcreate as [_ (k & Hk & _ & _ & _ & _ & _ & ->)].
  destruct (run_identity calls _ id _ Hwf1 Hne (created_lookup env id k t0 t1 s))
    as (c' & Hc' & _ & Hkey & _ & Ht0 & Ht1). simpl in *.
  apply exec_decrypt_Ok in Hdec as (_ & _ & Hstart & Hend & Hsig & _).
  rewrite (lookup_total_correct _ _ _ Hc') in *.
  exists k. split; [done|]. rewrite <- Hkey, <- Ht0, <- Ht1. by repeat split.
Qed.

Lemma decrypt_checks_created_handle_witness :
  ∃ k, fromExternal 7 proof_ok = Some k ∧
       checkSignatures [toBytes32 k]
         (abi_encode_uint32 Byte.x00 Byte.x00 Byte.x01 Byte.x02) proof_ok = true ∧
       100 ≤ 150 ≤ 200.
Proof.
  apply (decrypt_checks_created_handle init room_open
           (step (run [create_room "lobby"] room_open)
              (mkEnv 2 150, DecryptStreamKey "room"
                 (abi_encode_uint32 Byte.x00 Byte.x00 Byte.x01 Byte.x02) proof_ok))
           (mkEnv 1 50) (mkEnv 2 150) "room" 7 proof_ok
           (abi_encode_uint32 Byte.x00 Byte.x00 Byte.x01 Byte.x02) proof_ok 100 200
           [create_room "lobby"]).
  - apply reachable_init.
  - discriminate.
  - reflexivity.
  - reflexivity.
Defined.

(** X11.  Whatever calls follow the creation of a non-empty id, an
    [endConference] on it succeeds only for the account that created it
    and only after the endTime given at creation. *)
Theorem only_creator_ends `{F : FHE} (s s1 s2 : State) (env env' : Env)
    (id : string) (h : Z) (p : list Byte.byte) (t0 t1 : Z) (calls : list (Env * Op)) :
  reachable s → id ≠ "" →
  exec env (CreateConference id h p t0 t1) s = Ok s1 →
  exec env' (EndConference id) (run calls s1) = Ok s2 →
  msg_sender env' = msg_sender env ∧ t1 < block_timestamp env'.
Proof.
  intros Hs Hne Hcreate Hend. apply reachable_wf in Hs as Hwf.
  assert (wf s1) as Hwf1 by by eapply wf_exec.
  apply exec_create_Ok in Hcreate as [_ (k & Hk & _ & _ & _ & _ & _ & ->)].
  destruct (run_identity calls _ id _ Hwf1 Hne (created_lookup env id k t0 t1 s))
    as (c' & Hc' & _ & _ & Hcr & _ & Ht1). simpl in *.
  apply exec_end_Ok in Hend as (_ & Hsender & Hafter & _).
  rewrite (lookup_total_correct _ _ _ Hc') in *.
  split; [congruence | lia].
Qed.

Lemma only_creator_ends_witness :
  msg_sender (mkEnv 1 300) = msg_sender (mkEnv 1 50) ∧ 200 < block_timestamp (mkEnv 1 300).
Proof.
  apply (only_creator_ends init room_open
           (step (run [create_room "lobby"] room_open) (mkEnv 1 300, EndConference "room"))
           (mkEnv 1 50) (mkEnv 1 300) "room" 7 proof_ok 100 200 [create_room "lobby"]).
  - apply reachable_init.
  - discriminate.
  - reflexivity.
  - reflexivity.
Defined.

(** X12.  Once [endConference] has succeeded at some time, no
    [decryptStreamKey] on that id succeeds at that time or later, whatever
    calls come between: it reverts with "Stream key already decrypted" or
    with "Conference has ended". *)
Theorem no_decrypt_after_end `{F : FHE} (s s1 : State) (env env' : Env) (id : string)
    (key proof : list Byte.byte) (calls : list (Env * Op)) :
  reachable s →
  exec env (EndConference id) s = Ok s1 →
  block_timestamp env ≤ block_timestamp env' →
  exec env' (DecryptStreamKey id key proof) (run calls s1) = Err StreamKeyAlreadyDecrypted ∨
  exec env' (DecryptStreamKey id key proof) (run calls s1) = Err ConferenceHasEnded.
Proof.
  intros Hs Hend Hlater.
  apply reachable_wf in Hs as Hwf. apply reachable_sound in Hs as Hsound.
  assert (wf s1) as Hwf1 by by eapply wf_exec.
  apply exec_end_Ok in Hend as (Hlen & _ & Hafter & ->).
  apply (stored_id_positive _ _ Hwf) in Hlen as [Hne [c Hc]].
  rewrite (lookup_total_correct _ _ _ Hc) in Hafter.
  assert (conferences (ended id s) !! id = Some (set_isActive false c)) as Hc1.
  { unfold ended, write_conference; simpl.
    by rewrite (lookup_total_correct _ _ _ Hc), lookup_insert_eq. }
  destruct (run_identity calls _ id _ Hwf1 Hne Hc1)
    as (c' & Hc' & _ & _ & _ & Ht0 & Ht1). simpl in *.
  assert (startTime c < endTime c) as Hwin by by eapply sound_window.
  unfold exec, transact, body. rewrite decryptStreamKey_eq. simpl.
  rewrite (lookup_total_correct _ _ _ Hc').
  rewrite (stored_id_ltb _ _ _ (wf_run calls _ Hwf1) Hne Hc'). simpl.
  destruct (isDecrypted c'); [by left|]. right.
  destruct (Z.leb_spec (startTime c') (block_timestamp env')); simpl; [|lia].
  by destruct (Z.leb_spec (block_timestamp env') (endTime c')); simpl; [lia|].
Qed.

Lemma no_decrypt_after_end_witness :
  exec (mkEnv 2 300)
    (DecryptStreamKey "room" (abi_encode_uint32 Byte.x00 Byte.x00 Byte.x01 Byte.x02) proof_ok)
    (step room_open (mkEnv 1 300, EndConference "room"))
  = Err ConferenceHasEnded.
Proof.
  destruct (no_decrypt_after_end room_open
              (step room_open (mkEnv 1 300, EndConference "room"))
              (mkEnv 1 300) (mkEnv 2 300) "room"
              (abi_encode_uint32 Byte.x00 Byte.x00 Byte.x01 Byte.x02) proof_ok [])
    as [H|H].
  - apply reachable_step, reachable_init.
  - reflexivity.
  - simpl. lia.
  - discriminate H.
  - exact H.
Defined.

(** ** The event log and the id list *)

(** X13.  The ids of the [ConferenceCreated] events, in the order they were
    emitted, are the id list: one event per entry, none without. *)
Theorem created_events_mirror_ids `{F : FHE} (s : State) :
  reachable s → created_event_ids (events s) = getAllConferenceIds s.
Proof. intros Hs. apply sound_created. by apply reachable_sound. Qed.

Lemma created_events_mirror_ids_witness :
  created_event_ids (events (run [create_room "b"; create_room "a"] init)) = ["b"; "a"].
Proof.
  rewrite (created_events_mirror_ids (run [create_room "b"; create_room "a"] init)).
  - reflexivity.
  - apply reachable_step, reachable_step, reachable_init.
Defined.

(** X14.  The log holds a [StreamKeyDecrypted] event with id and key
    exactly when the stored record of that id is decrypted with that key,
    and it holds at most one such event per id. *)
Theorem decrypted_events_mirror_records `{F : FHE} (s : State) :
  reachable s →
  (∀ id k, (id, k) ∈ decrypted_events (events s) ↔
           ∃ c, conferences s !! id = Some c ∧ isDecrypted c = true ∧
                decryptedStreamKey c = k) ∧
  NoDup (decrypted_events (events s)).*1.
Proof.
  intros Hs%reachable_sound. split; [apply (sound_decrypted _ Hs) | apply (sound_decrypted_once _ Hs)].
Qed.

Lemma decrypted_events_mirror_records_witness :
  ("room", 258) ∈ decrypted_events (events
     (step room_open
        (mkEnv 2 150, DecryptStreamKey "room"
           (abi_encode_uint32 Byte.x00 Byte.x00 Byte.x01 Byte.x02) proof_ok))).
Proof.
  apply (proj1 (decrypted_events_mirror_records
                  (step room_open
                     (mkEnv 2 150, DecryptStreamKey "room"
                        (abi_encode_uint32 Byte.x00 Byte.x00 Byte.x01 Byte.x02) proof_ok))
                  (reachable_step _ _ _ (reachable_step _ (mkEnv 1 50)
                     (CreateConference "room" 7 proof_ok 100 200) reachable_init)))).
  eexists. split; [vm_compute; reflexivity|]. split; reflexivity.
Defined.

(** X15.  No non-empty id occurs twice in the id list. *)
Theorem nonempty_ids_listed_once `{F : FHE} (s : State) :
  reachable s → NoDup (filter (λ id, id ≠ "") (getAllConferenceIds s)).
Proof. intros Hs. apply sound_ids_once. by apply reachable_sound. Qed.

Lemma nonempty_ids_listed_once_witness :
  NoDup (filter (λ id, id ≠ "")
           (getAllConferenceIds
              (run [create_room "b"; create_room ""; create_room "b"; create_room ""] init))).
Proof.
  apply (nonempty_ids_listed_once
           (run [create_room "b"; create_room ""; create_room "b"; create_room ""] init)).
  apply reachable_step, reachable_step, reachable_step, reachable_step, reachable_init.
Defined.

(** X16.  Each of the three guarded reads succeeds on an id exactly when
    the id is not empty and is in the id list. *)
Theorem guarded_reads_succeed_on_listed_ids `{F : FHE} (s : State) (id : string) :
  reachable s →
  ((∃ d, getConferenceDetails id s = Ok d) ↔ id ≠ "" ∧ id ∈ getAllConferenceIds s) ∧
  ((∃ k, getEncryptedStreamKey id s = Ok k) ↔ id ≠ "" ∧ id ∈ getAllConferenceIds s) ∧
  ((∃ b, isConferenceActive id s = Ok b) ↔ id ≠ "" ∧ id ∈ getAllConferenceIds s).
Proof.
  intros Hs%reachable_wf.
  rewrite getConferenceDetails_eq, getEncryptedStreamKey_eq, isConferenceActive_eq.
  unfold getAllConferenceIds. rewrite (wf_ids _ Hs), <- (stored_id_positive _ _ Hs).
  destruct (Nat.ltb_spec 0 (stored_id_length id s)); simpl.
  - repeat split; try done; by eexists.
  - repeat split; try lia; by intros [? ?].
Qed.

Lemma guarded_reads_succeed_on_listed_ids_witness :
  ∃ d, getConferenceDetails "room" room_open = Ok d.
Proof.
  apply (proj1 (guarded_reads_succeed_on_listed_ids room_open "room"
                  (reachable_step init (mkEnv 1 50)
                     (CreateConference "room" 7 proof_ok 100 200) reachable_init))).
  split; [discriminate|]. vm_compute. apply list_elem_of_here.
Defined.

(** X17.  The generated getter [conferenceIds(i)] reverts exactly when the
    index is outside the id list; inside, it returns the entry of
    [getAllConferenceIds] at that index, which has a stored record. *)
Theorem conferenceIds_getter_bounds `{F : FHE} (s : State) (i : Z) :
  reachable s →
  (conferenceIds_getter i s = None ↔
   ¬ (0 ≤ i < Z.of_nat (length (getAllConferenceIds s)))) ∧
  (∀ id, conferenceIds_getter i s = Some id →
         getAllConferenceIds s !! Z.to_nat i = Some id ∧
         is_Some (conferences s !! id)).
Proof.
  intros Hs%reachable_wf. unfold conferenceIds_getter, getAllConferenceIds.
  destruct (Z.leb_spec 0 i), (Z.ltb_spec i (Z.of_nat (length (conferenceIds s)))); simpl.
  - split.
    + split; [|lia]. intros Hnone. apply lookup_ge_None in Hnone. lia.
    + intros id Hid. split; [done|].
      apply (wf_ids _ Hs). by eapply list_elem_of_lookup_2.
  - split; [split; [lia | done] | done].
  - split; [split; [lia | done] | done].
  - split; [split; [lia | done] | done].
Qed.

Lemma conferenceIds_getter_bounds_witness :
  conferenceIds_getter 1 room_open = None ∧
  getAllConferenceIds room_open !! Z.to_nat 0 = Some "room".
Proof.
  destruct (conferenceIds_getter_bounds room_open 1
              (reachable_step init (mkEnv 1 50)
                 (CreateConference "room" 7 proof_ok 100 200) reachable_init)) as [Hnone _].
  destruct (conferenceIds_getter_bounds room_open 0
              (reachable_step init (mkEnv 1 50)
                 (CreateConference "room" 7 proof_ok 100 200) reachable_init)) as [_ Hsome].
  split.
  - apply Hnone. vm_compute. intros [_ H]. discriminate H.
  - apply (Hsome "room"). reflexivity.
Defined.

(** ** The decoder *)

Lemma be_word_acc (bs : list Byte.byte) (acc : Z) :
  fold_left (λ acc b, acc * 256 + Z.of_N (Byte.to_N b)) bs acc
  = acc * 256 ^ Z.of_nat (length bs) + be_word bs.
Proof.
  unfold be_word. revert acc. induction bs as [|b bs IH]; intros acc; simpl fold_left.
  - simpl. lia.
  - rewrite IH, (IH (0 * 256 + _)).
    rewrite length_cons, Nat2Z.inj_succ, Z.pow_succ_r by lia. lia.
Qed.

Lemma be_word_cons (b : Byte.byte) (bs : list Byte.byte) :
  be_word (b :: bs) = Z.of_N (Byte.to_N b) * 256 ^ Z.of_nat (length bs) + be_word bs.
Proof. unfold be_word at 1. simpl fold_left. rewrite be_word_acc. lia. Qed.

Lemma be_word_app (l k : list Byte.byte) :
  be_word (l ++ k) = be_word l * 256 ^ Z.of_nat (length k) + be_word k.
Proof. unfold be_word at 1. rewrite fold_left_app. apply be_word_acc. Qed.

Lemma byte_bounds (b : Byte.byte) : 0 ≤ Z.of_N (Byte.to_N b) < 256.
Proof. pose proof (Byte.to_N_bounded b). lia. Qed.

Lemma be_word_bounds (bs : list Byte.byte) : 0 ≤ be_word bs < 256 ^ Z.of_nat (length bs).
Proof.
  induction bs as [|b bs IH]; [unfold be_word; simpl; lia|].
  rewrite be_word_cons, length_cons, Nat2Z.inj_succ, Z.pow_succ_r by lia.
  pose proof (byte_bounds b). nia.
Qed.

Lemma be_word_zero (bs : list Byte.byte) :
  be_word bs = 0 ↔ bs = replicate (length bs) Byte.x00.
Proof.
  induction bs as [|b bs IH]; [done|].
  rewrite be_word_cons. simpl.
  pose proof (byte_bounds b) as Hb. pose proof (be_word_bounds bs) as Hw.
  assert (0 < 256 ^ Z.of_nat (length bs)) as Hp by (apply Z.pow_pos_nonneg; lia).
  split.
  - intros H0.
    assert (Z.of_N (Byte.to_N b) = 0) as Hb0 by nia.
    assert (be_word bs = 0) as Hw0 by nia.
    f_equal; [|by apply IH].
    destruct b; try discriminate Hb0. reflexivity.
  - intros [= -> Hbs]. apply IH in Hbs. simpl. lia.
Qed.

(** X18.  [abi.decode(data, (uint32))] accepts a payload exactly when it
    has at least 32 bytes of which the first 28 are zero; the value is
    bytes 29 to 32 read big endian, and whatever follows is ignored. *)
Theorem abi_decode_uint32_accepts (data : list Byte.byte) (k : Z) :
  abi_decode_uint32 data = Some k ↔
  (32 ≤ length data)%nat ∧
  take 28 data = replicate 28 Byte.x00 ∧
  k = be_word (take 4 (drop 28 data)).
Proof.
  unfold abi_decode_uint32.
  destruct (Nat.ltb_spec (length data) 32) as [Hshort|Hlong];
    [split; [done | intros [? _]; lia]|].
  assert (take 32 data = take 28 data ++ take 4 (drop 28 data)) as ->
    by by rewrite take_take_drop.
  assert (length (take 28 data) = 28%nat) as H28 by (rewrite length_take; lia).
  assert (length (take 4 (drop 28 data)) = 4%nat) as H4
    by (rewrite length_take, length_drop; lia).
  rewrite be_word_app, H4.
  pose proof (be_word_bounds (take 28 data)) as Hhi.
  pose proof (be_word_bounds (take 4 (drop 28 data))) as Hlo. rewrite H4 in Hlo.
  pose proof (be_word_zero (take 28 data)) as Hzero. rewrite H28 in Hzero.
  change (256 ^ Z.of_nat 4) with (2 ^ 32) in *.
  destruct (Z.ltb_spec (be_word (take 28 data) * 2 ^ 32 + be_word (take 4 (drop 28 data)))
              (2 ^ 32)) as [Hfit|Hwide].
  - assert (be_word (take 28 data) = 0) as H0 by nia.
    rewrite H0. split.
    + intros [= <-]. split; [done|]. split; [by apply Hzero | lia].
    + intros (_ & _ & ->). done.
  - split; [done|]. intros (_ & Hz & _). apply Hzero in Hz. nia.
Qed.

Lemma abi_decode_uint32_accepts_witness :
  abi_decode_uint32
    (abi_encode_uint32 Byte.x00 Byte.x00 Byte.x01 Byte.x02 ++ [Byte.xff]) = Some 258.
Proof.
  apply (abi_decode_uint32_accepts
           (abi_encode_uint32 Byte.x00 Byte.x00 Byte.x01 Byte.x02 ++ [Byte.xff]) 258).
  split; [vm_compute; lia|]. split; reflexivity.
Defined.

(** ** The client *)

(** X19.  The operation history is the ten latest entries, newest first:
    after any sequence of [addToHistory] calls from the empty history it
    holds the formatted entries in reverse order, cut to ten. *)
Theorem history_keeps_ten_latest (entries : list (string * string)) :
  App.history entries
    = take 10 (reverse ((λ e, e.1 +:+ ": " +:+ e.2) <$> entries)) ∧
  length (App.history entries) = min 10 (length entries).
Proof.
  assert (App.history entries
            = take 10 (reverse ((λ e, e.1 +:+ ": " +:+ e.2) <$> entries))) as H.
  { induction entries as [|e es IH] using rev_ind; [done|].
    unfold App.history in *. rewrite fold_left_app. simpl. rewrite IH.
    unfold App.addToHistory. rewrite fmap_app, reverse_app. simpl.
    by rewrite take_take. }
  split; [done|]. by rewrite H, length_take, length_reverse, length_fmap.
Qed.



(** X21.  The list [loadConferences] builds holds one room per business id
    whose data could be fetched, in the order of the ids, each with
    encryptedKey equal to its id and isActive = true; so the statistics it
    computes always show active = total, and verified at most total. *)
Theorem load_stats_active_is_total {raw num : Type} (toNumber : raw → num)
    (falsy : num → bool) (zero : num)
    (getBusinessData : string → option (App.BusinessData (raw := raw)))
    (businessIds : list string) :
  let rooms := App.collect toNumber falsy zero getBusinessData businessIds in
  App.id <$> rooms = filter (λ i, is_Some (getBusinessData i)) businessIds ∧
  Forall (λ c, App.encryptedKey c = App.id c ∧ App.isActive c = true) rooms ∧
  App.total (App.stats_of rooms) = length rooms ∧
  App.active (App.stats_of rooms) = App.total (App.stats_of rooms) ∧
  (App.verified (App.stats_of rooms) ≤ App.total (App.stats_of rooms))%nat.
Proof.
  simpl.
  assert (Forall (λ c, App.encryptedKey c = App.id c ∧ App.isActive c = true)
            (App.collect toNumber falsy zero getBusinessData businessIds)) as Hall.
  { induction businessIds as [|i ids IH]; simpl; [constructor|].
    destruct (getBusinessData i); [constructor; [done | apply IH] | apply IH]. }
  split; [|split; [done|]; split; [done|]; split; [|apply length_filter]].
  - clear Hall. induction businessIds as [|i ids IH]; [done|].
    simpl App.collect.
    destruct (getBusinessData i) as [b|] eqn:Hb.
    + rewrite filter_cons_True by (rewrite Hb; by eexists).
      rewrite fmap_cons. simpl App.id. by rewrite IH.
    + rewrite filter_cons_False by (rewrite Hb; by intros [? ?]). apply IH.
  - unfold App.stats_of. simpl.
    induction Hall as [|c l [_ Hc] _ IH]; [done|].
    rewrite filter_cons_True by done. simpl. by rewrite IH.
Qed.

Lemma load_stats_active_is_total_witness :
  App.active
    (App.stats_of
       (App.collect (raw := Z) (num := Z) id (Z.eqb 0) 0
          (λ i, if String.eqb i "gone" then None
                else Some (App.mkBusinessData "n" 4 60 1700000000 "0xab" false 0))
          ["a"; "gone"; "b"])) = 2%nat.
Proof.
  rewrite (proj1 (proj2 (proj2 (proj2
             (load_stats_active_is_total (raw := Z) (num := Z) id (Z.eqb 0) 0
                (λ i, if String.eqb i "gone" then None
                      else Some (App.mkBusinessData "n" 4 60 1700000000 "0xab" false 0))
                ["a"; "gone"; "b"]))))).
  reflexivity.
Defined.

Lemma history_keeps_ten_latest_witness :
  App.history [("10:00", "a"); ("10:01", "b")] = ["10:01: b"; "10:00: a"].
Proof.
  rewrite (proj1 (history_keeps_ten_latest [("10:00", "a"); ("10:01", "b")])).
  reflexivity.
Defined.

(** X22.  In every reachable storage, [endConference] on a non-empty id
    reverts with "Conference does not exist" if no record is stored, else
    with "Only creator can end conference" if the caller is not the
    creator, else with "Conference is still active" if the time is not
    after endTime, and otherwise succeeds, clearing isActive. *)
Theorem end_outcome `{F : FHE} (s : State) (env : Env) (id : string) :
  reachable s → id ≠ "" →
  exec env (EndConference id) s =
  match conferences s !! id with
  | None => Err ConferenceDoesNotExist
  | Some c =>
    if negb (msg_sender env =? creator c) then Err OnlyCreatorCanEndConference
    else if block_timestamp env <=? endTime c then Err ConferenceIsStillActive
    else Ok (ended id s)
  end.
Proof.
  intros Hs%reachable_wf Hne.
  destruct (conferences s !! id) as [c|] eqn:Hc.
  - rewrite (end_existing env id c s Hs Hne Hc).
    destruct (msg_sender env =? creator c); simpl; [|done].
    by destruct (Z.ltb_spec (endTime c) (block_timestamp env)),
                (Z.leb_spec (block_timestamp env) (endTime c)); try lia.
  - unfold exec, transact, body. rewrite endConference_eq. simpl.
    by rewrite (stored_id_length_None _ _ Hc).
Qed.

Lemma end_outcome_witness :
  exec (mkEnv 2 300) (EndConference "room") room_open = Err OnlyCreatorCanEndConference ∧
  exec (mkEnv 1 200) (EndConference "room") room_open = Err ConferenceIsStillActive ∧
  exec (mkEnv 1 300) (EndConference "lobby") room_open = Err ConferenceDoesNotExist.
Proof.
  assert (reachable room_open) as Hr by apply reachable_step, reachable_init.
  split; [|split].
  - rewrite (end_outcome room_open (mkEnv 2 300) "room" Hr); [reflexivity | discriminate].
  - rewrite (end_outcome room_open (mkEnv 1 200) "room" Hr); [reflexivity | discriminate].
  - rewrite (end_outcome room_open (mkEnv 1 300) "lobby" Hr); [reflexivity | discriminate].
Defined.
